(** * pytest-bdd: step registration, name allocation and fixture injection

    A shallow embedding of [pytest_bdd/steps.py].  Python strings are
    [string], [dict]s whose key presence matters are [gmap]s, the module
    namespace (an insertion-ordered [dict]) is an association list, and the
    mutable pytest request is an explicit state record threaded through
    [inject_fixture] and its finaliser. *)

From stdpp Require Import gmap strings list fin_maps pretty.

Open Scope string_scope.
Open Scope list_scope.
Open Scope nat_scope.

(** ** Python values and exceptions *)

Inductive PyVal :=
  | PyNone
  | PyStr (s : string)
  | PyInt (z : Z).

#[global] Instance PyVal_eq_dec : EqDecision PyVal.
Proof. solve_decision. Defined.

Inductive PyErr :=
  | KeyError
  | ValueError
  | TypeError
  | AssertionError
  | FixtureLookupError
  | StepDefinitionNotFoundError.

#[global] Instance PyErr_eq_dec : EqDecision PyErr.
Proof. solve_decision. Defined.

(** ** [StepNamePrefix] (steps.py, lines 55-58) *)

Module StepNamePrefix.

Inductive t := step_def | step_impl.

(** The declared value of a member ([member.value]). *)
Definition value (m : t) : string :=
  match m with
  | step_def => "pytestbdd_stepdef"
  | step_impl => "pytestbdd_stepimpl"
  end.

(** The member's own name ([member.name]). *)
Definition name (m : t) : string :=
  match m with
  | step_def => "step_def"
  | step_impl => "step_impl"
  end.

(** [str(member)]: a plain [enum.Enum] prints as [ClassName.member]. *)
Definition str (m : t) : string := "StepNamePrefix." +:+ name m.

(** [format(member)], which is what an f-string replacement field calls:
    a plain [enum.Enum] (no mixed-in data type) formats as [str(member)]. *)
Definition format (m : t) : string := str m.

End StepNamePrefix.

(** ** Step types *)

(** The constants [GIVEN], [WHEN], [THEN] that lines 95, 110 and 125 pass
    on; their values are the three literals of the annotation at lines 63
    and 146. *)
Inductive StepType := GIVEN | WHEN | THEN.

#[global] Instance StepType_eq_dec : EqDecision StepType.
Proof. solve_decision. Defined.

Definition step_type_str (t : StepType) : string :=
  match t with
  | GIVEN => "given"
  | WHEN => "when"
  | THEN => "then"
  end.

(** ** [get_step_fixture_name] (lines 70-78) *)

Definition get_step_fixture_name (name : string) (type_ : string) : string :=
  StepNamePrefix.format StepNamePrefix.step_impl +:+ "_" +:+ type_ +:+ "_" +:+ name.

(** The name built at line 181, before [find_unique_name] is applied. *)
Definition step_def_base_name (step_type : StepType) (parser_name : string) : string :=
  StepNamePrefix.format StepNamePrefix.step_def +:+ "_" +:+ step_type_str step_type
    +:+ "_" +:+ parser_name.

(** ** [find_unique_name] (lines 128-142) *)

(** [f"{name}_{i}"] for the integer [i] of [itertools.count(1)]. *)
Definition suffixed (name : string) (i : nat) : string :=
  name +:+ "_" +:+ pretty i.

(** The [for i in count(i0)] loop.  The source loop has no bound; [fuel]
    counts the iterations still allowed and [None] means it ran out. *)
Fixpoint find_unique_name_loop (fuel : nat) (name : string) (seen : gset string)
    (i : nat) : option string :=
  match fuel with
  | O => None
  | S fuel' =>
      let new_name := suffixed name i in
      if decide (new_name ∈ seen) then find_unique_name_loop fuel' name seen (S i)
      else Some new_name
  end.

Definition find_unique_name_fuel (fuel : nat) (name : string) (seen : list string)
    : option string :=
  let seen : gset string := list_to_set seen in
  if decide (name ∈ seen) then find_unique_name_loop fuel name seen 1
  else Some name.

(** [size seen + 1] iterations always suffice (lemma
    [find_unique_name_fuel_enough] below), so the function is total. *)
Definition find_unique_name (name : string) (seen : list string) : string :=
  default name
    (find_unique_name_fuel (S (size (list_to_set seen : gset string))) name seen).

(** ** The pytest request that [inject_fixture] mutates *)

(** A [FixtureDef] object as built at lines 197-205.  [FixtureDef] defines
    no [__eq__], so [list.remove] compares by object identity: [fd_id]. *)
Record FixtureDef := {
  fd_id : nat;
  fd_baseid : option string;
  fd_argname : string;
  fd_func : unit → PyVal;
  fd_scope : string;
  fd_params : option (list PyVal);
  fd_cached_result : option (PyVal * Z * option PyErr);
}.

(** The closure [fin] of lines 210-215 with the variables it captures. *)
Record Finalizer := {
  fin_arg : string;
  fin_fd : FixtureDef;
  fin_old_fd : option FixtureDef;
  fin_add_fixturename : bool;
}.

(** The parts of the request that the injector reads and writes:
    [request._fixturemanager._arg2fixturedefs], [request._fixture_defs]
    (a value of this dict may be [None]),
    [request._pyfuncitem._fixtureinfo.names_closure], the finalisers
    registered through [request.addfinalizer] (newest first) and the
    identity that the next allocated object receives. *)
Record FixtureRequest := {
  _arg2fixturedefs : gmap string (list FixtureDef);
  _fixture_defs : gmap string (option FixtureDef);
  names_closure : list string;
  _finalizers : list Finalizer;
  next_id : nat;
}.

(** What a statement leaves behind: the request as mutated so far, and
    either a value or the exception that was raised. *)
Inductive Result (A : Type) :=
  | Returned (a : A) (request : FixtureRequest)
  | Raised (e : PyErr) (request : FixtureRequest).
Arguments Returned {A} a request.
Arguments Raised {A} e request.

(** The operations of the host runtime that [inject_fixture] calls and
    that are not part of this repository: the property
    [request.fixturenames] and the constructor [FixtureDef(...)], which
    either raises or builds the object. *)
Class Host := {
  fixturenames : FixtureRequest → list string;
  FixtureDef_init_raises : FixtureRequest → string → option PyErr;
}.

(** Every name of the closure is among the names the request reports. *)
Definition closure_reported `{Host} : Prop :=
  ∀ (request : FixtureRequest) (n : string),
    n ∈ names_closure request → n ∈ fixturenames request.

(** [d.get(k)] on a dict whose values may be [None]. *)
Definition dict_get {V : Type} (d : gmap string (option V)) (k : string) : option V :=
  d !! k ≫= id.

(** [lst.remove(x)] with identity comparison: drops the first element
    with the identity [i]; [None] stands for [ValueError]. *)
Fixpoint remove_fd (i : nat) (l : list FixtureDef) : option (list FixtureDef) :=
  match l with
  | [] => None
  | fd :: l' =>
      if decide (fd_id fd = i) then Some l'
      else cons fd <$> remove_fd i l'
  end.

(** [lst.remove(s)] on a list of strings. *)
Fixpoint remove_str (s : string) (l : list string) : option (list string) :=
  match l with
  | [] => None
  | x :: l' =>
      if decide (x = s) then Some l'
      else cons x <$> remove_str s l'
  end.

(** [fin] (lines 210-215), run on the current state of the request. *)
Definition fin (c : Finalizer) (request : FixtureRequest) : Result unit :=
  let arg := fin_arg c in
  match _arg2fixturedefs request !! arg with
  | None => Raised KeyError request
  | Some defs =>
      match remove_fd (fd_id (fin_fd c)) defs with
      | None => Raised ValueError request
      | Some defs' =>
          let request :=
            {| _arg2fixturedefs := <[arg := defs']> (_arg2fixturedefs request);
               _fixture_defs := <[arg := fin_old_fd c]> (_fixture_defs request);
               names_closure := names_closure request;
               _finalizers := _finalizers request;
               next_id := next_id request |} in
          if fin_add_fixturename c then
            match remove_str arg (names_closure request) with
            | None => Raised ValueError request
            | Some closure' =>
                Returned ()
                  {| _arg2fixturedefs := _arg2fixturedefs request;
                     _fixture_defs := _fixture_defs request;
                     names_closure := closure';
                     _finalizers := _finalizers request;
                     next_id := next_id request |}
            end
          else Returned () request
      end
  end.

(** The object of lines 197-205: [FixtureDef(...)] with the arguments of
    the source, then [fd.cached_result = (value, 0, None)]. *)
Definition new_fixture_def (identity : nat) (arg : string) (value : PyVal) : FixtureDef :=
  {| fd_id := identity;
     fd_baseid := None;
     fd_argname := arg;
     fd_func := λ _, value;
     fd_scope := "function";
     fd_params := None;
     fd_cached_result := Some (value, 0%Z, None) |}.

(** [inject_fixture] (lines 189-225). *)
Definition inject_fixture `{Host} (request : FixtureRequest) (arg : string)
    (value : PyVal) : Result unit :=
  match FixtureDef_init_raises request arg with
  | Some e => Raised e request
  | None =>
      let fd := new_fixture_def (next_id request) arg value in
      let old_fd := dict_get (_fixture_defs request) arg in
      let add_fixturename := bool_decide (arg ∉ fixturenames request) in
      let fin :=
        {| fin_arg := arg; fin_fd := fd; fin_old_fd := old_fd;
           fin_add_fixturename := add_fixturename |} in
      Returned ()
        {| _arg2fixturedefs :=
             <[arg := default [] (_arg2fixturedefs request !! arg) ++ [fd]]>
               (_arg2fixturedefs request);
           _fixture_defs := <[arg := Some fd]> (_fixture_defs request);
           names_closure :=
             if add_fixturename then names_closure request ++ [arg]
             else names_closure request;
           _finalizers := fin :: _finalizers request;
           next_id := S (next_id request) |}
  end.

(** Modelled from the spec: the host's teardown of one test invocation,
    which is not part of this repository.  Finalisers run in reverse order
    of registration, and a finaliser that raises does not keep the later
    ones from running; the exceptions are collected. *)
Fixpoint run_finalizers (fins : list Finalizer) (request : FixtureRequest)
    (errors : list PyErr) : FixtureRequest * list PyErr :=
  match fins with
  | [] => (request, errors)
  | c :: fins' =>
      match fin c request with
      | Returned _ request' => run_finalizers fins' request' errors
      | Raised e request' => run_finalizers fins' request' (errors ++ [e])
      end
  end.

Definition teardown (request : FixtureRequest) : FixtureRequest * list PyErr :=
  run_finalizers (_finalizers request)
    {| _arg2fixturedefs := _arg2fixturedefs request;
       _fixture_defs := _fixture_defs request;
       names_closure := names_closure request;
       _finalizers := [];
       next_id := next_id request |} [].

(** Modelled from the spec: the host's name-based resolution
    ([request.getfixturevalue]), which is not part of this repository.
    The active entry of a name is the one in [request._fixture_defs]; an
    entry that carries a cached result yields that value and its function
    is not called. *)
Inductive Resolution :=
  | FromCache (v : PyVal)
  | MustCompute (fd : FixtureDef)
  | NotActive.

Definition getfixturevalue (request : FixtureRequest) (argname : string) : Resolution :=
  match dict_get (_fixture_defs request) argname with
  | Some fd =>
      match fd_cached_result fd with
      | Some (v, _, _) => FromCache v
      | None => MustCompute fd
      end
  | None => NotActive
  end.

(** The request a statement left behind, whether it returned or raised. *)
Definition result_request {A : Type} (res : Result A) : FixtureRequest :=
  match res with
  | Returned _ request => request
  | Raised _ request => request
  end.

(** The three parts of the request that make up the dependency graph and
    the reachable-name set. *)
Definition graph (request : FixtureRequest)
    : gmap string (list FixtureDef) * gmap string (option FixtureDef) * list string :=
  (_arg2fixturedefs request, _fixture_defs request, names_closure request).

(** The definitions registered for a name, an absent key read as no
    definitions. *)
Definition defs_of (request : FixtureRequest) (n : string) : list FixtureDef :=
  default [] (_arg2fixturedefs request !! n).

(** Two requests that answer every read alike: the same closure, the same
    active definition and the same registered definitions for every name.
    A key bound to [None] or to the empty list reads like an absent key. *)
Definition same_bindings (r1 r2 : FixtureRequest) : Prop :=
  names_closure r1 = names_closure r2 ∧
  (∀ n, dict_get (_fixture_defs r1) n = dict_get (_fixture_defs r2) n) ∧
  (∀ n, defs_of r1 n = defs_of r2 n).

(** A name that has a key in both tables of the request. *)
Definition keys_present (request : FixtureRequest) (n : string) : Prop :=
  is_Some (_arg2fixturedefs request !! n) ∧ is_Some (_fixture_defs request !! n).

(** What is left by the finalisers of a run of injections of the names
    [injected], relative to the request [r] before the run.  The closure
    is that of [r] and every read is answered as by [r].  A name that was
    not injected is untouched in both tables.  A name that was injected
    has a key in both tables afterwards, bound to what [r] held for it:
    to [None] and to the empty list when [r] had no key.  So the graph is
    that of [r] exactly when every injected name had a key in both. *)
Definition unwound (r : FixtureRequest) (injected : list string)
    (s : FixtureRequest) : Prop :=
  names_closure s = names_closure r ∧
  (∀ n, dict_get (_fixture_defs s) n = dict_get (_fixture_defs r) n) ∧
  (∀ n, defs_of s n = defs_of r n) ∧
  (∀ n, n ∉ injected →
     _fixture_defs s !! n = _fixture_defs r !! n ∧
     _arg2fixturedefs s !! n = _arg2fixturedefs r !! n) ∧
  (∀ n, n ∈ injected →
     _fixture_defs s !! n = Some (dict_get (_fixture_defs r) n) ∧
     _arg2fixturedefs s !! n = Some (defs_of r n)) ∧
  (∀ n, n ∈ injected → _fixture_defs r !! n = None →
     _fixture_defs s !! n = Some None) ∧
  (∀ n, n ∈ injected → _arg2fixturedefs r !! n = None →
     _arg2fixturedefs s !! n = Some []) ∧
  (graph s = graph r ↔ Forall (keys_present r) injected).

(** Object identities in the request are older than the next allocation. *)
Definition ids_allocated (request : FixtureRequest) : Prop :=
  ∀ n l fd, _arg2fixturedefs request !! n = Some l → fd ∈ l →
    fd_id fd < next_id request.

(** A sequence of injections, stopping at the first that raises. *)
Fixpoint inject_all `{Host} (injections : list (string * PyVal))
    (request : FixtureRequest) : Result unit :=
  match injections with
  | [] => Returned () request
  | (arg, value) :: rest =>
      match inject_fixture request arg value with
      | Returned _ request' => inject_all rest request'
      | Raised e request' => Raised e request'
      end
  end.

(** A host in the manner of pytest: [request.fixturenames] lists the
    closure, then the keys of [_fixture_defs] that the closure lacks, and
    the constructor call of lines 197-204 is accepted. *)
Definition pytest_host : Host := {|
  fixturenames request :=
    names_closure request ++
    filter (λ n, n ∉ names_closure request)
      (elements (dom (_fixture_defs request)));
  FixtureDef_init_raises _ _ := None;
|}.

(** A host whose [FixtureDef] constructor does not accept the call of
    lines 197-204 (a release with another constructor signature, say):
    the call raises [TypeError]. *)
Definition rejecting_host : Host := {|
  fixturenames request :=
    names_closure request ++
    filter (λ n, n ∉ names_closure request)
      (elements (dom (_fixture_defs request)));
  FixtureDef_init_raises _ _ := Some TypeError;
|}.

Definition empty_request : FixtureRequest :=
  {| _arg2fixturedefs := ∅; _fixture_defs := ∅; names_closure := [];
     _finalizers := []; next_id := 0 |}.

(** ** Step definition contexts and the decorators *)

(** A Python function: its identity, the parameter names it declares and
    what a call with keyword arguments returns or raises. *)
Record Callable := {
  fn_id : nat;
  fn_params : list string;
  fn_body : list (string * PyVal) → PyErr + PyVal;
}.

(** The interface of [StepParser] that steps.py relies on: the attribute
    [name] (line 181) and the matching operation, which yields the
    extracted arguments or [None]. *)
Record StepParser := {
  parser_name : string;
  parse_arguments : string → option (list (string * PyVal));
}.

(** [StepFunctionContext] (lines 61-67). *)
Record StepFunctionContext := {
  type : StepType;
  step_func : Callable;
  parser : StepParser;
  converters : gmap string (PyVal → PyErr + PyVal);
  target_fixture : option string;
}.

(** [step_function_marker] (lines 174-177) once [pytest.fixture(name=...)]
    has marked it: calling it with no argument returns the context. *)
Record StepFunctionMarker := {
  marker_call : unit → StepFunctionContext;
  _pytest_bdd_step_context : StepFunctionContext;
  fixture_name : string;
}.

(** What a module namespace binds a name to. *)
Inductive PyObj :=
  | ObjFixture (m : StepFunctionMarker)
  | ObjCallable (f : Callable)
  | ObjVal (v : PyVal).

(** The interpreter state seen by the decorators and by step execution:
    the namespace of every module (a [dict], which keeps insertion order),
    the request of the running test and the log of the step functions that
    were called, oldest first. *)
Record World := {
  modules : gmap string (list (string * PyObj));
  request : FixtureRequest;
  invoked : list nat;
}.

(** [d[k] = v] on an insertion-ordered dict: an existing key keeps its
    place, a new key goes last. *)
Fixpoint dict_setitem {V : Type} (k : string) (v : V) (d : list (string * V))
    : list (string * V) :=
  match d with
  | [] => [(k, v)]
  | (k', v') :: d' =>
      if decide (k' = k) then (k, v) :: d' else (k', v') :: dict_setitem k v d'
  end.

(** Modelled from the spec: [get_parser] of the parsers module, which is
    not among the sources.  A bare literal string becomes an exact-match
    parser that extracts no argument; a parser is taken as it is. *)
Definition get_parser (step_name : string + StepParser) : StepParser :=
  match step_name with
  | inl s =>
      {| parser_name := s;
         parse_arguments := λ text, if decide (text = s) then Some [] else None |}
  | inr p => p
  end.

(** Modelled from the spec: [get_caller_module_locals] of the utils
    module, which is not among the sources.  It returns the namespace of
    the module in which the decorator is applied, here named [caller]. *)
Definition get_caller_module_locals (caller : string) (w : World)
    : list (string * PyObj) :=
  default [] (modules w !! caller).

(** The module that defines the decorators. *)
Definition steps_module : string := "pytest_bdd.steps".

(** [_step_decorator] (lines 145-186).  The result is the inner function
    [decorator]; [caller] is the module whose code applies it. *)
Definition _step_decorator (step_type : StepType) (step_name : string + StepParser)
    (converters : option (gmap string (PyVal → PyErr + PyVal)))
    (target_fixture : option string)
    : string → Callable → World → Callable * World :=
  let converters :=
    match converters with
    | None => ∅
    | Some c => c
    end in
  λ caller func w,
    let parser := get_parser step_name in
    let context :=
      {| type := step_type; step_func := func; parser := parser;
         converters := converters; target_fixture := target_fixture |} in
    let caller_locals := get_caller_module_locals caller w in
    let fixture_step_name :=
      find_unique_name (step_def_base_name step_type (parser_name parser))
        caller_locals.*1 in
    let step_function_marker :=
      {| marker_call := λ _, context;
         _pytest_bdd_step_context := context;
         fixture_name := fixture_step_name |} in
    (func,
     {| modules :=
          <[caller := dict_setitem fixture_step_name
                        (ObjFixture step_function_marker) caller_locals]>
            (modules w);
        request := request w;
        invoked := invoked w |}).

(** [given], [when], [then] (lines 81-125). *)
Definition given (name : string + StepParser)
    (converters : option (gmap string (PyVal → PyErr + PyVal)))
    (target_fixture : option string) :=
  _step_decorator GIVEN name converters target_fixture.

Definition when (name : string + StepParser)
    (converters : option (gmap string (PyVal → PyErr + PyVal)))
    (target_fixture : option string) :=
  _step_decorator WHEN name converters target_fixture.

Definition then_ (name : string + StepParser)
    (converters : option (gmap string (PyVal → PyErr + PyVal)))
    (target_fixture : option string) :=
  _step_decorator THEN name converters target_fixture.

(** ** Step resolution and execution *)

(** Modelled from the spec: the resolution loop of the scenario-execution
    module, which is not among the sources.  The step definition contexts
    reachable from a test are those its module registered, in registration
    order, each obtained by calling its zero-argument accessor. *)
Definition step_contexts (namespace : list (string * PyObj)) : list StepFunctionContext :=
  omap (λ entry,
          match entry.2 with
          | ObjFixture m => Some (marker_call m ())
          | _ => None
          end) namespace.

(** Modelled from the spec: the candidates for a step line are all the
    contexts of the line's category whose parser matches its text, with
    the arguments the parser extracted. *)
Definition candidates (category : StepType) (text : string)
    (namespace : list (string * PyObj))
    : list (StepFunctionContext * list (string * PyVal)) :=
  omap (λ ctx,
          if decide (type ctx = category)
          then pair ctx <$> parse_arguments (parser ctx) text
          else None) (step_contexts namespace).

(** Modelled from the spec: the value of one declared parameter.  An
    extracted argument goes through its converter when there is one; any
    other parameter is requested by name from the request. *)
Definition argument_value (ctx : StepFunctionContext) (args : list (string * PyVal))
    (req : FixtureRequest) (p : string) : PyErr + PyVal :=
  match (list_to_map args : gmap string PyVal) !! p with
  | Some a =>
      match converters ctx !! p with
      | Some convert => convert a
      | None => inr a
      end
  | None =>
      match getfixturevalue req p with
      | FromCache v => inr v
      | MustCompute fd => inr (fd_func fd ())
      | NotActive => inl FixtureLookupError
      end
  end.

Fixpoint bind_arguments (ctx : StepFunctionContext) (args : list (string * PyVal))
    (req : FixtureRequest) (params : list string) : PyErr + list (string * PyVal) :=
  match params with
  | [] => inr []
  | p :: params' =>
      match argument_value ctx args req p with
      | inl e => inl e
      | inr v =>
          match bind_arguments ctx args req params' with
          | inl e => inl e
          | inr kwargs => inr ((p, v) :: kwargs)
          end
      end
  end.

(** Modelled from the spec: one matched definition is executed.  Its
    implementation is called with the bound arguments, and a returned
    value is published through [inject_fixture] when the context declares
    a target name.  A failure is passed on at once. *)
Definition execute_step_function `{Host} (ctx : StepFunctionContext)
    (args : list (string * PyVal)) (w : World) : World * option PyErr :=
  match bind_arguments ctx args (request w) (fn_params (step_func ctx)) with
  | inl e => (w, Some e)
  | inr kwargs =>
      let w :=
        {| modules := modules w; request := request w;
           invoked := invoked w ++ [fn_id (step_func ctx)] |} in
      match fn_body (step_func ctx) kwargs with
      | inl e => (w, Some e)
      | inr return_value =>
          match target_fixture ctx with
          | None => (w, None)
          | Some name =>
              match inject_fixture (request w) name return_value with
              | Returned _ req' =>
                  ({| modules := modules w; request := req';
                      invoked := invoked w |}, None)
              | Raised e req' =>
                  ({| modules := modules w; request := req';
                      invoked := invoked w |}, Some e)
              end
          end
      end
  end.

Fixpoint execute_candidates `{Host}
    (cands : list (StepFunctionContext * list (string * PyVal))) (w : World)
    : World * option PyErr :=
  match cands with
  | [] => (w, None)
  | (ctx, args) :: rest =>
      match execute_step_function ctx args w with
      | (w', None) => execute_candidates rest w'
      | (w', Some e) => (w', Some e)
      end
  end.

(** Modelled from the spec: a step line of the test in [test_module].
    No candidate is a lookup failure; otherwise every candidate executes,
    in the order of [candidates]. *)
Definition execute_step `{Host} (test_module : string) (category : StepType)
    (text : string) (w : World) : World * option PyErr :=
  match candidates category text (default [] (modules w !! test_module)) with
  | [] => (w, Some StepDefinitionNotFoundError)
  | cands => execute_candidates cands w
  end.

(** Modelled from the spec: the step lines of a scenario run one after the
    other and the first failure ends the run. *)
Fixpoint execute_scenario `{Host} (test_module : string)
    (lines : list (StepType * string)) (w : World) : World * option PyErr :=
  match lines with
  | [] => (w, None)
  | (category, text) :: rest =>
      match execute_step test_module category text w with
      | (w', None) => execute_scenario test_module rest w'
      | (w', Some e) => (w', Some e)
      end
  end.

Definition empty_world : World :=
  {| modules := ∅; request := empty_request; invoked := [] |}.

(** ** The scenario of [test_given_injection] (tests/steps/test_given.py) *)

(** The double-quote character of the step text at lines 14 and 33. *)
Definition dquote : string := String (Ascii.ascii_of_nat 34) EmptyString.

Definition test_given_module : string := "test_given".

(** Lines 28-30: the function decorated with
    [@given("I have injecting given", target_fixture="foo")]. *)
Definition injecting_given : Callable :=
  {| fn_id := 1; fn_params := [];
     fn_body := λ _, inr (PyStr "injected foo") |}.

(** Lines 33-35: the function decorated with [@then(...)], which declares
    the parameter [foo] and asserts that it equals the string [injected foo]. *)
Definition foo_should_be : Callable :=
  {| fn_id := 2; fn_params := ["foo"];
     fn_body := λ kwargs,
       match (list_to_map kwargs : gmap string PyVal) !! "foo" with
       | Some foo =>
           if decide (foo = PyStr "injected foo") then inr PyNone
           else inl AssertionError
       | None => inl TypeError
       end |}.

Definition foo_should_be_text : string :=
  "foo should be " +:+ dquote +:+ "injected foo" +:+ dquote.

(** The module after both decorators were applied, in source order. *)
Definition test_given_world : World :=
  let w1 :=
    (given (inl "I have injecting given") None (Some "foo")
       test_given_module injecting_given empty_world).2 in
  (then_ (inl foo_should_be_text) None None test_given_module foo_should_be w1).2.

(** Lines 13-14 of the feature. *)
Definition test_given_steps : list (StepType * string) :=
  [(GIVEN, "I have injecting given"); (THEN, foo_should_be_text)].

(** ** Two definitions for one step text *)

Definition have_a_bar : Callable :=
  {| fn_id := 7; fn_params := []; fn_body := λ _, inr (PyStr "bar") |}.

Definition have_a_bar_too : Callable :=
  {| fn_id := 8; fn_params := []; fn_body := λ _, inr PyNone |}.



(** The contexts of a category whose parser accepts a text. *)
Definition accepts (category : StepType) (text : string)
    (ctx : StepFunctionContext) : Prop :=
  type ctx = category ∧ is_Some (parse_arguments (parser ctx) text).

#[global] Instance accepts_dec category text ctx : Decision (accepts category text ctx).
Proof. unfold accepts. apply _. Defined.

(** ** A module body: decorators applied one after the other *)

(** One application of a step decorator in the code of a module: the
    arguments of the decorator factory, the module and the function. *)
Record Decoration := {
  dec_type : StepType;
  dec_name : string + StepParser;
  dec_converters : option (gmap string (PyVal → PyErr + PyVal));
  dec_target : option string;
  dec_caller : string;
  dec_func : Callable;
}.

(** The context that lines 166-172 build for a decoration. *)
Definition decoration_context (d : Decoration) : StepFunctionContext :=
  {| type := dec_type d; step_func := dec_func d;
     parser := get_parser (dec_name d);
     converters := default ∅ (dec_converters d);
     target_fixture := dec_target d |}.

Definition apply_decoration (w : World) (d : Decoration) : World :=
  (_step_decorator (dec_type d) (dec_name d) (dec_converters d) (dec_target d)
     (dec_caller d) (dec_func d) w).2.

Definition apply_decorations (ds : list Decoration) (w : World) : World :=
  foldl apply_decoration w ds.

(** ** [parameterized_or_literal] (tests/steps/test_given.py, lines 108-114) *)

(** The helper of the module that [test_parsing_missing_example] writes.
    [request.getfixturevalue] is the host operation [getvalue];
    [argument[0]] and [argument[-1]] are one-character strings and
    [argument[1:-1]] drops the first and the last character. *)
Definition parameterized_or_literal (getvalue : string → PyErr + PyVal)
    (argument : string) : PyErr + PyVal :=
  if decide (argument = EmptyString) then inr PyNone
  else if decide (String.substring 0 1 argument = "<" ∧
                  String.substring (String.length argument - 1) 1 argument = ">")
  then getvalue (String.substring 1 (String.length argument - 2) argument)
  else inr (PyStr argument).

(** * Properties *)

(** ** Names *)

Lemma string_app_nil_r (s : string) : s +:+ EmptyString = s.
Proof.
  induction s as [|c s IH]; [done|].
  change (String c (s +:+ EmptyString) = String c s). by rewrite IH.
Qed.

Lemma string_app_assoc (s1 s2 s3 : string) :
  (s1 +:+ s2) +:+ s3 = s1 +:+ (s2 +:+ s3).
Proof.
  induction s1 as [|c s1 IH]; [done|].
  change (String c ((s1 +:+ s2) +:+ s3) = String c (s1 +:+ (s2 +:+ s3))).
  by rewrite IH.
Qed.

Lemma suffixed_inj (name : string) : Inj (=) (=) (suffixed name).
Proof.
  intros i j Hij. unfold suffixed in Hij.
  apply String.app_inj in Hij. apply String.app_inj in Hij.
  by apply (inj pretty) in Hij.
Qed.

Lemma suffixed_free_exists (name : string) (seen : gset string) :
  ∃ k, 1 ≤ k < 1 + S (size seen) ∧ suffixed name k ∉ seen.
Proof.
  set (ks := seq 1 (S (size seen))).
  destruct (decide (Forall (λ k, suffixed name k ∈ seen) ks)) as [Hall|Hex].
  - exfalso.
    assert (Hnd : NoDup (suffixed name <$> ks)).
    { apply NoDup_fmap_2; [apply suffixed_inj | apply NoDup_seq]. }
    assert (Hsub : suffixed name <$> ks ⊆+ elements seen).
    { apply NoDup_submseteq; [done|]. intros x Hx.
      apply list_elem_of_fmap in Hx as (k & -> & Hk).
      rewrite Forall_forall in Hall. apply elem_of_elements. by apply Hall. }
    apply submseteq_length in Hsub.
    rewrite length_fmap in Hsub. unfold ks in Hsub.
    rewrite length_seq in Hsub. unfold size, set_size in Hsub. simpl in Hsub. lia.
  - apply not_Forall_Exists in Hex; [|intros k; apply _].
    apply Exists_exists in Hex as (k & Hk & Hfree).
    apply elem_of_seq in Hk. exists k. split; [lia | done].
Qed.

Lemma find_unique_name_loop_least (fuel : nat) (name : string) (seen : gset string) :
  ∀ i, (∃ k, i ≤ k < i + fuel ∧ suffixed name k ∉ seen) →
    ∃ k, i ≤ k ∧
      find_unique_name_loop fuel name seen i = Some (suffixed name k) ∧
      (suffixed name k ∉ seen) ∧
      ∀ j, i ≤ j < k → suffixed name j ∈ seen.
Proof.
  induction fuel as [|fuel IH]; intros i (k & Hk & Hfree); [lia|].
  simpl. destruct (decide (suffixed name i ∈ seen)) as [Hin|Hout].
  - assert (k ≠ i) by (intros ->; done).
    destruct (IH (S i)) as (k' & Hk' & Hres & Hfree' & Hleast).
    { exists k. split; [lia | done]. }
    exists k'. split; [lia|]. split; [done|]. split; [done|].
    intros j Hj. destruct (decide (j = i)) as [->|]; [done|]. apply Hleast. lia.
  - exists i. split; [lia|]. split; [done|]. split; [done|]. intros j Hj. lia.
Qed.

Lemma find_unique_name_loop_fuel_irrelevant (name : string) (seen : gset string) :
  ∀ fuel1 fuel2 i r1 r2,
    find_unique_name_loop fuel1 name seen i = Some r1 →
    find_unique_name_loop fuel2 name seen i = Some r2 → r1 = r2.
Proof.
  induction fuel1 as [|fuel1 IH]; intros [|fuel2] i r1 r2; simpl; try done.
  destruct (decide (suffixed name i ∈ seen)); [apply IH | congruence].
Qed.

(** With more iterations allowed than there are names in [seen], the loop
    of [find_unique_name] returns. *)
Lemma find_unique_name_fuel_enough (name : string) (seen : list string) (fuel : nat) :
  size (list_to_set seen : gset string) < fuel →
  find_unique_name_fuel fuel name seen = Some (find_unique_name name seen).
Proof.
  intros Hfuel. unfold find_unique_name, find_unique_name_fuel.
  destruct (decide (name ∈ (list_to_set seen : gset string))); [|done].
  destruct (suffixed_free_exists name (list_to_set seen)) as (k & Hk & Hfree).
  destruct (find_unique_name_loop_least fuel name (list_to_set seen) 1)
    as (k1 & _ & Hr1 & _); [exists k; split; [lia | done]|].
  destruct (find_unique_name_loop_least (S (size (list_to_set seen : gset string)))
              name (list_to_set seen) 1)
    as (k2 & _ & Hr2 & _); [exists k; split; [lia | done]|].
  rewrite Hr2. simpl. rewrite Hr1. f_equal.
  eapply find_unique_name_loop_fuel_irrelevant; eassumption.
Qed.

Lemma find_unique_name_absent (name : string) (seen : list string) :
  name ∉ seen → find_unique_name name seen = name.
Proof.
  intros Hout. unfold find_unique_name, find_unique_name_fuel.
  rewrite decide_False; [done|]. by rewrite elem_of_list_to_set.
Qed.

Lemma find_unique_name_present (name : string) (seen : list string) :
  name ∈ seen →
  ∃ i, 1 ≤ i ∧ find_unique_name name seen = suffixed name i ∧
    (suffixed name i ∉ seen) ∧ ∀ j, 1 ≤ j < i → suffixed name j ∈ seen.
Proof.
  intros Hin. unfold find_unique_name, find_unique_name_fuel.
  rewrite decide_True; [|by rewrite elem_of_list_to_set].
  destruct (suffixed_free_exists name (list_to_set seen)) as (k & Hk & Hfree).
  destruct (find_unique_name_loop_least (S (size (list_to_set seen : gset string)))
              name (list_to_set seen) 1)
    as (i & Hi & Hres & Hfree' & Hleast); [exists k; split; [lia | done]|].
  exists i. rewrite Hres. simpl. split; [done|]. split; [done|].
  rewrite elem_of_list_to_set in Hfree'. split; [done|].
  intros j Hj. specialize (Hleast j Hj). by rewrite elem_of_list_to_set in Hleast.
Qed.

Lemma find_unique_name_fresh (name : string) (seen : list string) :
  find_unique_name name seen ∉ seen.
Proof.
  destruct (decide (name ∈ seen)) as [Hin|Hout].
  - destruct (find_unique_name_present name seen Hin) as (i & _ & -> & Hfree & _).
    done.
  - by rewrite find_unique_name_absent.
Qed.

Example find_unique_name_third :
  find_unique_name "step" ["step"; "other"; "step_1"; "step_2"] = "step_3".
Proof. reflexivity. Qed.

(** C2.  [find_unique_name b S] is [b] when [b] is not in [S]; otherwise
    it is [b_i] for the least positive [i] with [b_i] not in [S].  The
    result is never in [S], and the unbounded loop of the source returns
    this same result whenever it is given more than [|S|] iterations, so
    that the result depends on [b] and [S] alone. *)
Theorem find_unique_name_correct (b : string) (S : list string) :
  (b ∉ S → find_unique_name b S = b) ∧
  (b ∈ S →
     ∃ i, 1 ≤ i ∧ find_unique_name b S = b +:+ "_" +:+ pretty i ∧
       (b +:+ "_" +:+ pretty i ∉ S) ∧
       ∀ j, 1 ≤ j < i → b +:+ "_" +:+ pretty j ∈ S) ∧
  (find_unique_name b S ∉ S) ∧
  (∀ fuel, size (list_to_set S : gset string) < fuel →
     find_unique_name_fuel fuel b S = Some (find_unique_name b S)).
Proof.
  split; [apply find_unique_name_absent|].
  split; [apply find_unique_name_present|].
  split; [apply find_unique_name_fresh|].
  intros fuel. apply find_unique_name_fuel_enough.
Qed.

(** C10.  [get_step_fixture_name n t] is the text
    [StepNamePrefix.step_impl_t_n], built from the printed form of the enum
    member and not from its value [pytestbdd_stepimpl]; the name a
    decoration starts from is [StepNamePrefix.step_def_type_parser], and
    the identifier that is allocated from it begins with that text and
    not with [pytestbdd_stepdef]. *)
Theorem step_names_use_member_text (n t : string) (step_type : StepType)
    (parser_name : string) (seen : list string) :
  get_step_fixture_name n t = "StepNamePrefix.step_impl_" +:+ t +:+ "_" +:+ n ∧
  String.prefix "pytestbdd_stepimpl" (get_step_fixture_name n t) = false ∧
  step_def_base_name step_type parser_name =
    "StepNamePrefix.step_def_" +:+ step_type_str step_type +:+ "_" +:+ parser_name ∧
  (∃ suffix,
     find_unique_name (step_def_base_name step_type parser_name) seen =
       "StepNamePrefix.step_def_" +:+ step_type_str step_type +:+ "_" +:+ parser_name
         +:+ suffix) ∧
  String.prefix "pytestbdd_stepdef"
    (find_unique_name (step_def_base_name step_type parser_name) seen) = false.
Proof.
  split; [reflexivity|]. split; [reflexivity|]. split; [reflexivity|].
  assert (Hform : ∃ suffix,
            find_unique_name (step_def_base_name step_type parser_name) seen =
              step_def_base_name step_type parser_name +:+ suffix).
  { destruct (decide (step_def_base_name step_type parser_name ∈ seen)) as [Hin|Hout].
    - destruct (find_unique_name_present _ _ Hin) as (i & _ & -> & _).
      by exists ("_" +:+ pretty i).
    - rewrite find_unique_name_absent; [|done]. exists EmptyString.
      by rewrite string_app_nil_r. }
  destruct Hform as (suffix & ->). split.
  - exists suffix. unfold step_def_base_name, StepNamePrefix.format,
      StepNamePrefix.str. simpl.
    by rewrite !string_app_assoc.
  - reflexivity.
Qed.

(** ** The injector and its finaliser *)

Lemma remove_fd_last (l : list FixtureDef) (fd : FixtureDef) :
  (∀ x, x ∈ l → fd_id x ≠ fd_id fd) → remove_fd (fd_id fd) (l ++ [fd]) = Some l.
Proof.
  induction l as [|y l IH]; simpl; intros Hfresh.
  - by rewrite decide_True.
  - rewrite decide_False; [|apply Hfresh; left].
    rewrite IH; [done|]. intros x Hx. apply Hfresh. by right.
Qed.

Lemma remove_str_last (l : list string) (s : string) :
  s ∉ l → remove_str s (l ++ [s]) = Some l.
Proof.
  induction l as [|y l IH]; simpl; intros Hout.
  - by rewrite decide_True.
  - rewrite decide_False; [|intros ->; apply Hout; left].
    rewrite IH; [done|]. intros Hin. apply Hout. by right.
Qed.

Lemma defs_of_nonempty (r : FixtureRequest) (n : string) (l : list FixtureDef)
    (fd : FixtureDef) :
  defs_of r n = l ++ [fd] → _arg2fixturedefs r !! n = Some (l ++ [fd]).
Proof.
  unfold defs_of. destruct (_arg2fixturedefs r !! n) as [l'|]; simpl.
  - by intros ->.
  - intros Hnil. symmetry in Hnil. by apply app_nil in Hnil as [_ ?].
Qed.

Lemma dict_get_insert {V : Type} (d : gmap string (option V)) (k n : string)
    (v : option V) :
  dict_get (<[k := v]> d) n = if decide (k = n) then v else dict_get d n.
Proof.
  unfold dict_get. rewrite lookup_insert. by destruct (decide (k = n)).
Qed.

Lemma defs_of_insert (r : FixtureRequest) (m : gmap string (option FixtureDef))
    (nc : list string) (fs : list Finalizer) (i : nat) (k n : string)
    (l : list FixtureDef) :
  defs_of {| _arg2fixturedefs := <[k := l]> (_arg2fixturedefs r);
             _fixture_defs := m; names_closure := nc; _finalizers := fs;
             next_id := i |} n
  = if decide (k = n) then l else defs_of r n.
Proof.
  unfold defs_of. simpl. rewrite lookup_insert. by destruct (decide (k = n)).
Qed.

(** The finaliser on any request whose definition list for the name ends
    with the installed entry and whose closure ends with the name when
    the injector appended it. *)
Lemma fin_restores (c : Finalizer) (s : FixtureRequest) (l : list FixtureDef)
    (nc : list string) :
  defs_of s (fin_arg c) = l ++ [fin_fd c] →
  (∀ x, x ∈ l → fd_id x ≠ fd_id (fin_fd c)) →
  names_closure s = (if fin_add_fixturename c then nc ++ [fin_arg c] else nc) →
  (fin_add_fixturename c = true → fin_arg c ∉ nc) →
  fin c s = Returned ()
    {| _arg2fixturedefs := <[fin_arg c := l]> (_arg2fixturedefs s);
       _fixture_defs := <[fin_arg c := fin_old_fd c]> (_fixture_defs s);
       names_closure := nc;
       _finalizers := _finalizers s;
       next_id := next_id s |}.
Proof.
  intros Hdefs Hfresh Hnc Hadd. unfold fin.
  rewrite (defs_of_nonempty _ _ _ _ Hdefs), (remove_fd_last _ _ Hfresh). simpl.
  destruct (fin_add_fixturename c).
  - rewrite Hnc, remove_str_last; [done | by apply Hadd].
  - by rewrite Hnc.
Qed.

Section Injector.
Context `{host : Host}.

Lemma inject_fixture_inv (r r1 : FixtureRequest) (arg : string) (v : PyVal) :
  inject_fixture r arg v = Returned () r1 →
  r1 = {| _arg2fixturedefs :=
            <[arg := defs_of r arg ++ [new_fixture_def (next_id r) arg v]]>
              (_arg2fixturedefs r);
          _fixture_defs :=
            <[arg := Some (new_fixture_def (next_id r) arg v)]> (_fixture_defs r);
          names_closure :=
            if bool_decide (arg ∉ fixturenames r) then names_closure r ++ [arg]
            else names_closure r;
          _finalizers :=
            {| fin_arg := arg;
               fin_fd := new_fixture_def (next_id r) arg v;
               fin_old_fd := dict_get (_fixture_defs r) arg;
               fin_add_fixturename := bool_decide (arg ∉ fixturenames r) |}
            :: _finalizers r;
          next_id := S (next_id r) |}.
Proof.
  unfold inject_fixture. destruct (FixtureDef_init_raises r arg); [done|].
  intros [= <-]. done.
Qed.

Lemma inject_fixture_raised (r r' : FixtureRequest) (arg : string) (v : PyVal)
    (e : PyErr) :
  inject_fixture r arg v = Raised e r' →
  r' = r ∧ FixtureDef_init_raises r arg = Some e.
Proof.
  unfold inject_fixture. destruct (FixtureDef_init_raises r arg); [|done].
  by intros [= <- <-].
Qed.

Lemma inject_fixture_total (r : FixtureRequest) (arg : string) (v : PyVal) :
  FixtureDef_init_raises r arg = None →
  ∃ r1, inject_fixture r arg v = Returned () r1.
Proof. unfold inject_fixture. intros ->. eauto. Qed.

Lemma inject_fixture_ids (r r1 : FixtureRequest) (arg : string) (v : PyVal) :
  ids_allocated r → inject_fixture r arg v = Returned () r1 → ids_allocated r1.
Proof.
  intros Hids Hinj. rewrite (inject_fixture_inv _ _ _ _ Hinj).
  intros n l fd. simpl. rewrite lookup_insert.
  destruct (decide (arg = n)) as [->|Hne].
  - intros [= <-] Hin. apply elem_of_app in Hin as [Hin|Hin].
    + unfold defs_of in Hin.
      destruct (_arg2fixturedefs r !! n) as [l'|] eqn:Hl; simpl in Hin.
      * specialize (Hids n l' fd Hl Hin). lia.
      * by apply not_elem_of_nil in Hin.
    + apply list_elem_of_singleton in Hin as ->. simpl. lia.
  - intros Hl Hin. specialize (Hids n l fd Hl Hin). lia.
Qed.


(** One injection, then its finaliser on any request that reads like the
    one the injection left. *)
Lemma inject_then_fin (r r1 s : FixtureRequest) (arg : string) (v : PyVal) :
  closure_reported → ids_allocated r →
  inject_fixture r arg v = Returned () r1 → same_bindings s r1 →
  ∃ c s', _finalizers r1 = c :: _finalizers r ∧ fin_arg c = arg ∧
    fin c s = Returned () s' ∧ same_bindings s' r ∧
    (graph s = graph r1 → keys_present r arg → graph s' = graph r).
Proof.
  intros Hrep Hids Hinj (Hnc & Hget & Hdefs).
  pose proof (inject_fixture_inv _ _ _ _ Hinj) as Hr1.
  set (fd := new_fixture_def (next_id r) arg v) in *.
  set (add := bool_decide (arg ∉ fixturenames r)) in *.
  set (c := {| fin_arg := arg; fin_fd := fd;
               fin_old_fd := dict_get (_fixture_defs r) arg;
               fin_add_fixturename := add |}).
  assert (Hfin : fin c s = Returned ()
            {| _arg2fixturedefs := <[arg := defs_of r arg]> (_arg2fixturedefs s);
               _fixture_defs :=
                 <[arg := dict_get (_fixture_defs r) arg]> (_fixture_defs s);
               names_closure := names_closure r;
               _finalizers := _finalizers s;
               next_id := next_id s |}).
  { apply (fin_restores c s (defs_of r arg) (names_closure r)); simpl.
    - rewrite Hdefs, Hr1, defs_of_insert. by rewrite decide_True.
    - intros x Hx. unfold defs_of in Hx.
      destruct (_arg2fixturedefs r !! arg) as [l|] eqn:Hl; simpl in Hx.
      + specialize (Hids arg l x Hl Hx). lia.
      + by apply not_elem_of_nil in Hx.
    - by rewrite Hnc, Hr1.
    - unfold add. intros Hadd%bool_decide_eq_true Hin. apply Hadd.
      by apply Hrep. }
  exists c. eexists. split; [by rewrite Hr1|]. split; [done|].
  split; [exact Hfin|]. split.
  - split; [done|]. split.
    + intros n. simpl. rewrite dict_get_insert.
      destruct (decide (arg = n)) as [->|Hne]; [done|].
      rewrite Hget, Hr1. simpl. rewrite dict_get_insert. by rewrite decide_False.
    + intros n. rewrite defs_of_insert.
      destruct (decide (arg = n)) as [->|Hne]; [done|].
      rewrite Hdefs, Hr1, defs_of_insert. by rewrite decide_False.
  - intros Hgraph [[l Hl] [o Ho]]. unfold graph in *. simpl.
    injection Hgraph as Ha Hf _. rewrite Ha, Hf, Hr1. simpl.
    rewrite !insert_insert_eq.
    f_equal. f_equal.
    + apply insert_id. unfold defs_of. by rewrite Hl.
    + apply insert_id. unfold dict_get. by rewrite Ho.
Qed.

Lemma run_finalizers_app (cs1 cs2 : list Finalizer) :
  ∀ s errs,
    run_finalizers (cs1 ++ cs2) s errs =
    run_finalizers cs2 (run_finalizers cs1 s errs).1 (run_finalizers cs1 s errs).2.
Proof.
  induction cs1 as [|c cs1 IH]; intros s errs; simpl; [done|].
  destruct (fin c s); apply IH.
Qed.




(** The entry an injection installs is the active
    definition of the name, it carries the value as its cached result and
    resolving the name yields the value from that cache. *)
Lemma injected_value_resolves (r r1 : FixtureRequest) (arg : string) (v : PyVal) :
  inject_fixture r arg v = Returned () r1 →
  getfixturevalue r1 arg = FromCache v ∧
  ∃ fd, dict_get (_fixture_defs r1) arg = Some fd ∧
    fd_cached_result fd = Some (v, 0%Z, None) ∧ fd_func fd () = v ∧
    last (defs_of r1 arg) = Some fd.
Proof.
  intros Hinj. rewrite (inject_fixture_inv _ _ _ _ Hinj).
  unfold getfixturevalue. simpl. rewrite dict_get_insert, decide_True; [|done].
  split; [done|]. eexists. split; [done|]. repeat split.
  rewrite defs_of_insert, decide_True; [|done]. by rewrite last_snoc.
Qed.

(** C9.  An injection that raises leaves the request exactly as it was:
    the graph, the closure and the registered finalisers.  The only
    statement of [inject_fixture] that can raise is the construction of
    the entry, and it precedes every mutation. *)
Theorem failed_injection_leaves_request (r r' : FixtureRequest) (arg : string)
    (v : PyVal) (e : PyErr) :
  inject_fixture r arg v = Raised e r' →
  r' = r ∧ graph r' = graph r ∧ _finalizers r' = _finalizers r ∧
  FixtureDef_init_raises r arg = Some e.
Proof.
  intros Hraised. destruct (inject_fixture_raised _ _ _ _ _ Hraised) as [-> He].
  done.
Qed.

End Injector.

Lemma pytest_host_closure_reported : @closure_reported pytest_host.
Proof. intros r n Hn. simpl. apply elem_of_app. by left. Qed.

Lemma empty_request_ids_allocated : ids_allocated empty_request.
Proof. intros n l fd Hl. simpl in Hl. by rewrite lookup_empty in Hl. Qed.

(** On a fresh request, after one injection of [foo] and the teardown of
    the invocation: no finaliser raised and the closure is empty again,
    but both tables keep the key [foo], bound to [None] and to the empty
    list, so the graph is not the one before the injection, and a host
    that also lists the keys of [_fixture_defs] still reports [foo]. *)
Lemma finalizer_leaves_keys_behind :
  let r1 :=
    result_request (@inject_fixture pytest_host empty_request "foo" (PyStr "injected foo")) in
  let s := (teardown r1).1 in
  @inject_fixture pytest_host empty_request "foo" (PyStr "injected foo") = Returned () r1 ∧
  (teardown r1).2 = [] ∧
  names_closure s = names_closure empty_request ∧
  _fixture_defs empty_request !! "foo" = None ∧
  _fixture_defs s !! "foo" = Some None ∧
  _arg2fixturedefs empty_request !! "foo" = None ∧
  _arg2fixturedefs s !! "foo" = Some [] ∧
  graph s ≠ graph empty_request ∧
  ("foo" ∉ @fixturenames pytest_host empty_request) ∧
  ("foo" ∈ @fixturenames pytest_host s).
Proof.
  simpl. repeat split; try (vm_compute; reflexivity).
  - intros Hgraph. apply (f_equal (λ g, g.1.2 !! "foo")) in Hgraph.
    vm_compute in Hgraph. discriminate.
  - apply not_elem_of_nil.
  - apply (bool_decide_unpack _). vm_compute. exact I.
Qed.

Lemma failed_injection_leaves_request_witness :
  @inject_fixture rejecting_host empty_request "foo" (PyStr "injected foo")
    = Raised TypeError empty_request ∧
  graph empty_request = graph empty_request.
Proof.
  split; [reflexivity|].
  apply (@failed_injection_leaves_request rejecting_host empty_request empty_request
           "foo" (PyStr "injected foo") TypeError).
  reflexivity.
Defined.

(** ** Registration *)

Lemma dict_setitem_fresh {V : Type} (k : string) (v : V) (d : list (string * V)) :
  k ∉ d.*1 → dict_setitem k v d = d ++ [(k, v)].
Proof.
  induction d as [|[k' v'] d IH]; simpl; intros Hout; [done|].
  rewrite decide_False; [|intros ->; apply Hout; left].
  rewrite IH; [done|]. intros Hin. apply Hout. by right.
Qed.

Lemma step_contexts_snoc (namespace : list (string * PyObj)) (name : string)
    (m : StepFunctionMarker) :
  step_contexts (namespace ++ [(name, ObjFixture m)])
  = step_contexts namespace ++ [marker_call m ()].
Proof. unfold step_contexts. by rewrite omap_app. Qed.

Lemma get_caller_module_locals_insert (caller : string)
    (namespace : list (string * PyObj)) (ms : gmap string (list (string * PyObj)))
    (req : FixtureRequest) (log : list nat) :
  get_caller_module_locals caller
    {| modules := <[caller := namespace]> ms; request := req; invoked := log |}
  = namespace.
Proof. unfold get_caller_module_locals. simpl. by rewrite lookup_insert_eq. Qed.

(** What one application of a decorator does to the interpreter. *)
Lemma step_decorator_effect (step_type : StepType) (step_name : string + StepParser)
    (convs : option (gmap string (PyVal → PyErr + PyVal)))
    (target : option string) (caller : string) (func : Callable) (w : World) :
  let context :=
    {| type := step_type; step_func := func; parser := get_parser step_name;
       converters := default ∅ convs; target_fixture := target |} in
  let caller_locals := get_caller_module_locals caller w in
  let fixture_step_name :=
    find_unique_name (step_def_base_name step_type (parser_name (get_parser step_name)))
      caller_locals.*1 in
  _step_decorator step_type step_name convs target caller func w =
    (func,
     {| modules :=
          <[caller := caller_locals ++
              [(fixture_step_name,
                ObjFixture {| marker_call := λ _, context;
                              _pytest_bdd_step_context := context;
                              fixture_name := fixture_step_name |})]]>
            (modules w);
        request := request w;
        invoked := invoked w |}).
Proof.
  intros context caller_locals fixture_step_name. unfold _step_decorator.
  fold caller_locals. fold fixture_step_name.
  rewrite dict_setitem_fresh; [|apply find_unique_name_fresh].
  by destruct convs.
Qed.

(** C5.  One application of a decorator builds one context, with an empty
    mapping of converters when none is given, and binds in the namespace
    of the module that applies the decorator, under the name that
    [find_unique_name] allocates among the names of that namespace, a
    marker whose call without argument returns this context.  The name
    was not bound before, every binding that was there stays, and no
    other module changes, the module of the decorators included. *)
Theorem decorator_registers_in_caller_scope (step_type : StepType)
    (step_name : string + StepParser)
    (convs : option (gmap string (PyVal → PyErr + PyVal)))
    (target : option string) (caller : string) (func : Callable) (w : World) :
  let context :=
    {| type := step_type; step_func := func; parser := get_parser step_name;
       converters := match convs with Some c => c | None => ∅ end;
       target_fixture := target |} in
  let before := get_caller_module_locals caller w in
  let allocated :=
    find_unique_name (step_def_base_name step_type (parser_name (get_parser step_name)))
      before.*1 in
  let w' := (_step_decorator step_type step_name convs target caller func w).2 in
  (allocated ∉ before.*1) ∧
  (∃ m, get_caller_module_locals caller w' = before ++ [(allocated, ObjFixture m)] ∧
     marker_call m () = context ∧ _pytest_bdd_step_context m = context ∧
     fixture_name m = allocated) ∧
  step_contexts (get_caller_module_locals caller w')
  = step_contexts before ++ [context] ∧
  (convs = None → converters context = ∅) ∧
  (∀ other, other ≠ caller → modules w' !! other = modules w !! other) ∧
  (caller ≠ steps_module → modules w' !! steps_module = modules w !! steps_module).
Proof.
  intros context before allocated w'. unfold w'.
  rewrite step_decorator_effect. simpl.
  assert (Hctx : {| type := step_type; step_func := func;
                    parser := get_parser step_name;
                    converters := default ∅ convs; target_fixture := target |}
                 = context) by (unfold context; by destruct convs).
  rewrite Hctx. fold before. fold allocated.
  split; [apply find_unique_name_fresh|]. split.
  { eexists. rewrite get_caller_module_locals_insert.
    split; [reflexivity|]. done. }
  split.
  { rewrite get_caller_module_locals_insert. by rewrite step_contexts_snoc. }
  split; [by intros ->|]. split.
  - intros other Hne. by rewrite lookup_insert_ne.
  - intros Hne. by rewrite lookup_insert_ne.
Qed.

(** ** Resolution and execution of a step line *)

Lemma omap_cons_eq {A B : Type} (f : A → option B) (x : A) (l : list A) :
  omap f (x :: l) = match f x with
                    | Some y => y :: omap f l
                    | None => omap f l
                    end.
Proof. done. Qed.

Lemma candidates_contexts (category : StepType) (text : string)
    (namespace : list (string * PyObj)) :
  (candidates category text namespace).*1
  = filter (accepts category text) (step_contexts namespace).
Proof.
  unfold candidates. induction (step_contexts namespace) as [|ctx l IH]; [done|].
  rewrite omap_cons_eq, filter_cons.
  destruct (decide (accepts category text ctx)) as [[Htype [args Hargs]]|Hno].
  - rewrite decide_True by done. rewrite Hargs. simpl. by rewrite <- IH.
  - destruct (decide (type ctx = category)) as [Htype|Htype]; [|done].
    destruct (parse_arguments (parser ctx) text) as [args|] eqn:Hparse; [|done].
    exfalso. apply Hno. split; [done|]. rewrite Hparse. eauto.
Qed.

Section Execution.
Context `{host : Host}.

Lemma execute_step_function_ok (ctx : StepFunctionContext)
    (args : list (string * PyVal)) (w w' : World) :
  execute_step_function ctx args w = (w', None) →
  modules w' = modules w ∧
  invoked w' = invoked w ++ [fn_id (step_func ctx)] ∧
  ∃ kwargs v,
    bind_arguments ctx args (request w) (fn_params (step_func ctx)) = inr kwargs ∧
    fn_body (step_func ctx) kwargs = inr v ∧
    match target_fixture ctx with
    | Some name => inject_fixture (request w) name v = Returned () (request w')
    | None => request w' = request w
    end.
Proof.
  unfold execute_step_function.
  destruct (bind_arguments ctx args (request w) (fn_params (step_func ctx)))
    as [e|kwargs] eqn:Hbind; [done|].
  destruct (fn_body (step_func ctx) kwargs) as [e|v] eqn:Hbody; [done|]. simpl.
  destruct (target_fixture ctx) as [name|].
  - destruct (inject_fixture (request w) name v) as [[] req'|] eqn:Hinj; [|done].
    intros [= <-]. simpl. split; [done|]. split; [done|]. by exists kwargs, v.
  - intros [= <-]. simpl. split; [done|]. split; [done|]. by exists kwargs, v.
Qed.

Lemma execute_candidates_ok
    (cands : list (StepFunctionContext * list (string * PyVal))) :
  ∀ w w', execute_candidates cands w = (w', None) →
    modules w' = modules w ∧
    invoked w' = invoked w ++ (fn_id ∘ step_func <$> cands.*1).
Proof.
  induction cands as [|[ctx args] rest IH]; intros w w'; simpl.
  - intros [= <-]. by rewrite app_nil_r.
  - destruct (execute_step_function ctx args w) as [w1 [e|]] eqn:Hstep; [done|].
    intros Hrest. destruct (IH _ _ Hrest) as [Hmod Hlog].
    destruct (execute_step_function_ok _ _ _ _ Hstep) as (Hmod1 & Hlog1 & _).
    split; [congruence|]. by rewrite Hlog, Hlog1, <- app_assoc.
Qed.

Lemma execute_step_log (test_module : string) (category : StepType)
    (text : string) (w w' : World) :
  execute_step test_module category text w = (w', None) →
  invoked w' = invoked w ++
    (fn_id ∘ step_func <$>
       filter (accepts category text)
         (step_contexts (default [] (modules w !! test_module)))).
Proof.
  unfold execute_step. intros Hstep.
  rewrite <- candidates_contexts.
  destruct (candidates category text (default [] (modules w !! test_module)))
    as [|cand cands]; [done|].
  by destruct (execute_candidates_ok _ _ _ Hstep) as [_ Hlog].
Qed.





End Execution.


(** C7.  The entry an injection installs is the active definition of the
    name and holds the value as its cached result, so that resolving the
    name yields exactly the value without calling anything; in the
    scenario of [test_given_injection] both steps pass, the [then] step
    having received the string the [given] step returned. *)
Theorem injected_value_is_final :
  (∀ (host : Host) (r r1 : FixtureRequest) (arg : string) (v : PyVal),
     @inject_fixture host r arg v = Returned () r1 →
     getfixturevalue r1 arg = FromCache v ∧
     ∃ fd, dict_get (_fixture_defs r1) arg = Some fd ∧
       fd_cached_result fd = Some (v, 0%Z, None) ∧ fd_func fd () = v ∧
       last (defs_of r1 arg) = Some fd) ∧
  (let after_given :=
     (@execute_step pytest_host test_given_module GIVEN "I have injecting given"
        test_given_world).1 in
   let done :=
     @execute_scenario pytest_host test_given_module test_given_steps test_given_world in
   getfixturevalue (request after_given) "foo" = FromCache (PyStr "injected foo") ∧
   bind_arguments
     {| type := THEN; step_func := foo_should_be;
        parser := get_parser (inl foo_should_be_text); converters := ∅;
        target_fixture := None |} [] (request after_given) (fn_params foo_should_be)
     = inr [("foo", PyStr "injected foo")] ∧
   done.2 = None ∧
   invoked done.1 = [fn_id injecting_given; fn_id foo_should_be]).
Proof.
  split.
  - intros host r r1 arg v. apply injected_value_resolves.
  - repeat split; vm_compute; reflexivity.
Qed.

Lemma injected_value_is_final_witness :
  getfixturevalue
    (result_request (@inject_fixture pytest_host empty_request "foo" (PyStr "injected foo")))
    "foo" = FromCache (PyStr "injected foo").
Proof.
  apply (proj1 injected_value_is_final pytest_host empty_request _ "foo" (PyStr "injected foo")).
  reflexivity.
Defined.

(** ** Decoration and later execution *)

(** C3.  A decorator hands back the very callable it was given and calls
    nothing: the log of invoked step functions and the request are as
    before.  Since the result is the callable itself, a second decorator
    stacked on top receives that callable, and the two applications leave
    two registrations in the caller's namespace, one per decorator, each
    holding the callable.  The callable is called later, when a step line
    of the category whose text the parser accepts is executed. *)
Theorem decorator_returns_callable_uncalled (t1 t2 : StepType)
    (name1 name2 : string + StepParser)
    (convs1 convs2 : option (gmap string (PyVal → PyErr + PyVal)))
    (target1 target2 : option string) (caller : string) (f : Callable) (w : World) :
  let inner := _step_decorator t1 name1 convs1 target1 caller f w in
  let outer := _step_decorator t2 name2 convs2 target2 caller inner.1 inner.2 in
  inner.1 = f ∧ invoked inner.2 = invoked w ∧ request inner.2 = request w ∧
  outer.1 = f ∧ invoked outer.2 = invoked w ∧ request outer.2 = request w ∧
  step_contexts (get_caller_module_locals caller outer.2)
  = step_contexts (get_caller_module_locals caller w) ++
      [ {| type := t1; step_func := f; parser := get_parser name1;
           converters := default ∅ convs1; target_fixture := target1 |};
        {| type := t2; step_func := f; parser := get_parser name2;
           converters := default ∅ convs2; target_fixture := target2 |} ] ∧
  length (get_caller_module_locals caller outer.2)
  = 2 + length (get_caller_module_locals caller w) ∧
  NoDup (drop (length (get_caller_module_locals caller w))
           (get_caller_module_locals caller outer.2).*1) ∧
  ∀ (host : Host) (text : string) (w2 : World),
    is_Some (parse_arguments (get_parser name1) text) →
    @execute_step host caller t1 text inner.2 = (w2, None) →
    fn_id f ∈ invoked w2.
Proof.
  intros inner outer. unfold outer, inner.
  rewrite (step_decorator_effect t1). cbn [fst snd].
  rewrite (step_decorator_effect t2). cbn [fst snd invoked request modules].
  rewrite !get_caller_module_locals_insert.
  repeat split.
  - rewrite !step_contexts_snoc. simpl. by rewrite <- app_assoc.
  - rewrite !length_app. simpl. lia.
  - set (ns := get_caller_module_locals caller w).
    set (k1 := find_unique_name _ ns.*1).
    set (e1 := ObjFixture _).
    set (k2 := find_unique_name _ (ns ++ [(k1, e1)]).*1).
    rewrite !fmap_app. simpl. rewrite <- app_assoc.
    rewrite <- (length_fmap fst ns), drop_app_length. simpl.
    apply NoDup_cons. split; [|apply NoDup_singleton].
    intros Hin%list_elem_of_singleton.
    assert (Hfresh : k2 ∉ (ns ++ [(k1, e1)]).*1) by apply find_unique_name_fresh.
    apply Hfresh. rewrite fmap_app. simpl.
    apply elem_of_app. right. rewrite Hin. by left.
  - intros host text w2 Haccepts Hstep.
    rewrite (execute_step_log _ _ _ _ _ Hstep). apply elem_of_app. right.
    change (default [] (modules ?w !! caller))
      with (get_caller_module_locals caller w).
    rewrite get_caller_module_locals_insert, step_contexts_snoc, filter_app.
    rewrite fmap_app. apply elem_of_app. right.
    rewrite filter_cons, decide_True by (by split). simpl. by left.
Qed.

(** * Further properties of the code *)

(** ** Allocation of names *)

Lemma string_length_app (s1 s2 : string) :
  String.length (s1 +:+ s2) = String.length s1 + String.length s2.
Proof.
  induction s1 as [|c s1 IH]; [done|].
  change (S (String.length (s1 +:+ s2)) = S (String.length s1 + String.length s2)).
  by rewrite IH.
Qed.

Lemma suffixed_ne_name (name : string) (i : nat) : suffixed name i ≠ name.
Proof.
  intros Heq. apply (f_equal String.length) in Heq. unfold suffixed in Heq.
  rewrite string_length_app in Heq.
  change (String.length ("_" +:+ pretty i)) with (S (String.length (pretty i))) in Heq.
  lia.
Qed.

Lemma find_unique_name_extends (name : string) (seen : list string) :
  ∃ suffix, find_unique_name name seen = name +:+ suffix.
Proof.
  destruct (decide (name ∈ seen)) as [Hin|Hout].
  - destruct (find_unique_name_present _ _ Hin) as (i & _ & -> & _).
    by exists ("_" +:+ pretty i).
  - rewrite find_unique_name_absent; [|done]. exists EmptyString.
    by rewrite string_app_nil_r.
Qed.

(** X1.  [find_unique_name] reads its second argument as a set: two
    iterables with the same elements, in whatever order and with whatever
    repetitions, give the same name. *)
Theorem find_unique_name_set_only (name : string) (seen1 seen2 : list string) :
  (∀ x, x ∈ seen1 ↔ x ∈ seen2) →
  find_unique_name name seen1 = find_unique_name name seen2.
Proof.
  intros Hsame.
  assert (Hset : (list_to_set seen1 : gset string) = list_to_set seen2).
  { apply set_eq. intros x. rewrite !elem_of_list_to_set. apply Hsame. }
  unfold find_unique_name, find_unique_name_fuel. by rewrite Hset.
Qed.

Lemma find_unique_name_set_only_witness :
  find_unique_name "step" ["step"; "step_1"; "step"]
  = find_unique_name "step" ["step_1"; "step"].
Proof.
  apply find_unique_name_set_only. intros x.
  rewrite !elem_of_cons, !elem_of_nil. tauto.
Defined.

(** X2.  When the name is taken, the suffix that [find_unique_name]
    appends is at most the number of distinct names seen: the loop over
    [count(1)] ends within that many iterations. *)
Theorem find_unique_name_index_bound (name : string) (seen : list string) :
  name ∈ seen →
  ∃ i, 1 ≤ i ≤ size (list_to_set seen : gset string) ∧
    find_unique_name name seen = name +:+ "_" +:+ pretty i.
Proof.
  intros Hin.
  destruct (find_unique_name_present _ _ Hin) as (i & Hi & Hres & _ & Hleast).
  exists i. split; [|done]. split; [done|].
  set (taken := name :: (suffixed name <$> seq 1 (i - 1))).
  assert (Hnd : NoDup taken).
  { apply NoDup_cons. split.
    - intros Hmem. apply list_elem_of_fmap in Hmem as (j & Hj & _).
      by apply (suffixed_ne_name name j).
    - apply NoDup_fmap_2; [apply suffixed_inj | apply NoDup_seq]. }
  assert (Hsub : taken ⊆+ elements (list_to_set seen : gset string)).
  { apply NoDup_submseteq; [done|]. intros x Hx.
    apply elem_of_elements, elem_of_list_to_set.
    apply elem_of_cons in Hx as [->|Hx]; [done|].
    apply list_elem_of_fmap in Hx as (j & -> & Hj).
    apply elem_of_seq in Hj. apply Hleast. lia. }
  apply submseteq_length in Hsub. unfold taken in Hsub. simpl in Hsub.
  rewrite length_fmap, length_seq in Hsub.
  unfold size, set_size. simpl. lia.
Qed.

Lemma find_unique_name_index_bound_witness :
  ∃ i, 1 ≤ i ≤ size (list_to_set ["step"; "other"; "step_1"] : gset string) ∧
    find_unique_name "step" ["step"; "other"; "step_1"] = "step" +:+ "_" +:+ pretty i.
Proof.
  apply find_unique_name_index_bound. rewrite !elem_of_cons. by left.
Defined.

(** X3.  Duplicates are numbered in sequence: when the name and its
    first [k] suffixed forms are taken and the next one is free, the next
    one is the result. *)
Theorem find_unique_name_next (name : string) (seen : list string) (k : nat) :
  name ∈ seen →
  (∀ j, 1 ≤ j ≤ k → name +:+ "_" +:+ pretty j ∈ seen) →
  name +:+ "_" +:+ pretty (S k) ∉ seen →
  find_unique_name name seen = name +:+ "_" +:+ pretty (S k).
Proof.
  intros Hin Htaken Hfree.
  destruct (find_unique_name_present _ _ Hin) as (i & Hi & Hres & Hfree' & Hleast).
  rewrite Hres. unfold suffixed. do 2 f_equal.
  destruct (decide (i = S k)) as [->|Hne]; [done|]. exfalso.
  destruct (decide (i ≤ k)) as [Hle|Hgt].
  - apply Hfree'. apply Htaken. lia.
  - apply Hfree. apply (Hleast (S k)). lia.
Qed.

Lemma find_unique_name_next_witness :
  find_unique_name "step" ["step_2"; "step"; "step_1"] = "step" +:+ "_" +:+ pretty 3.
Proof.
  apply (find_unique_name_next "step" ["step_2"; "step"; "step_1"] 2).
  - rewrite !elem_of_cons. tauto.
  - intros j Hj. assert (j = 1 ∨ j = 2) as [->| ->] by lia;
      rewrite !elem_of_cons; tauto.
  - rewrite !elem_of_cons, elem_of_nil. intros [H|[H|[H|[]]]]; discriminate H.
Defined.

(** X4.  Fixture names keep their arguments apart: for one type string
    the name argument can be read back, and for the three step types both
    the type and the name can, as can the type and the parser name of a
    step-definition base name.  For free-form type strings the underscore
    separator does not keep them apart. *)
Theorem step_fixture_names_injective :
  (∀ n n' ty, get_step_fixture_name n ty = get_step_fixture_name n' ty → n = n') ∧
  (∀ n n' t t',
     get_step_fixture_name n (step_type_str t)
     = get_step_fixture_name n' (step_type_str t') → t = t' ∧ n = n') ∧
  (∀ p p' t t', step_def_base_name t p = step_def_base_name t' p' → t = t' ∧ p = p') ∧
  get_step_fixture_name "c" "a_b" = get_step_fixture_name "b_c" "a".
Proof.
  split; [|split; [|split]].
  - intros n n' ty Heq. unfold get_step_fixture_name in Heq.
    by do 4 apply String.app_inj in Heq.
  - intros n n' t t' Heq. unfold get_step_fixture_name in Heq.
    do 2 apply String.app_inj in Heq.
    destruct t, t'; simpl in Heq; try discriminate Heq;
      (split; [done|]); by simplify_eq.
  - intros p p' t t' Heq. unfold step_def_base_name in Heq.
    do 2 apply String.app_inj in Heq.
    destruct t, t'; simpl in Heq; try discriminate Heq;
      (split; [done|]); by simplify_eq.
  - reflexivity.
Qed.

(** X5.  The two families of names do not meet: no name made by
    [get_step_fixture_name] is an identifier that a decoration allocates,
    whatever the arguments and whatever the namespace. *)
Theorem step_impl_and_step_def_names_disjoint (n ty : string) (step_type : StepType)
    (parser_name : string) (seen : list string) :
  get_step_fixture_name n ty
  ≠ find_unique_name (step_def_base_name step_type parser_name) seen.
Proof.
  destruct (find_unique_name_extends (step_def_base_name step_type parser_name) seen)
    as (suffix & ->).
  intros Heq. apply (f_equal (String.prefix "StepNamePrefix.step_i")) in Heq.
  discriminate Heq.
Qed.

(** ** Decorations in sequence *)

Lemma get_caller_module_locals_insert_ne (caller other : string)
    (namespace : list (string * PyObj)) (w : World) (req : FixtureRequest)
    (log : list nat) :
  other ≠ caller →
  get_caller_module_locals caller
    {| modules := <[other := namespace]> (modules w); request := req; invoked := log |}
  = get_caller_module_locals caller w.
Proof.
  intros Hne. unfold get_caller_module_locals. simpl. by rewrite lookup_insert_ne.
Qed.

Lemma apply_decoration_effect (w : World) (d : Decoration) :
  let caller_locals := get_caller_module_locals (dec_caller d) w in
  let allocated :=
    find_unique_name
      (step_def_base_name (dec_type d) (parser_name (get_parser (dec_name d))))
      caller_locals.*1 in
  apply_decoration w d =
    {| modules :=
         <[dec_caller d := caller_locals ++
             [(allocated,
               ObjFixture {| marker_call := λ _, decoration_context d;
                             _pytest_bdd_step_context := decoration_context d;
                             fixture_name := allocated |})]]>
           (modules w);
       request := request w;
       invoked := invoked w |}.
Proof.
  intros caller_locals allocated. unfold apply_decoration.
  by rewrite step_decorator_effect.
Qed.

(** X6.  Take any sequence of decorations, from any modules, and any
    module [m].  Afterwards the namespace of [m] is the earlier one
    followed by one new binding for each decoration applied in [m]; the
    contexts it registers are the earlier ones followed by those of these
    decorations, in the order of application; names that were distinct
    stay distinct; the request and the log of calls are untouched. *)
Theorem decorations_register_in_order (ds : list Decoration) (w : World) (m : string) :
  let before := get_caller_module_locals m w in
  let after := get_caller_module_locals m (apply_decorations ds w) in
  let here := filter (λ d, dec_caller d = m) ds in
  (∃ added, after = before ++ added ∧ length added = length here) ∧
  step_contexts after = step_contexts before ++ (decoration_context <$> here) ∧
  (NoDup before.*1 → NoDup after.*1) ∧
  request (apply_decorations ds w) = request w ∧
  invoked (apply_decorations ds w) = invoked w.
Proof.
  revert w. induction ds as [|d ds IH]; intros w; simpl.
  - split.
    { exists nil. by rewrite app_nil_r. }
    by rewrite app_nil_r.
  - destruct (IH (apply_decoration w d))
      as [(added & Hafter & Hlen) (Hctx & Hnd & Hreq & Hlog)].
    clear IH. rewrite Hctx, Hreq, Hlog, Hafter. rewrite Hafter in Hnd.
    clear Hafter Hctx Hreq Hlog.
    pose proof (apply_decoration_effect w d) as Heff. cbv zeta in Heff.
    rewrite Heff in *. clear Heff. cbn [request invoked].
    rewrite filter_cons.
    destruct (decide (dec_caller d = m)) as [<-|Hne].
    + rewrite get_caller_module_locals_insert in *.
      split; [|split; [|split]]; [| | |done].
      * eexists. rewrite <- app_assoc. split; [reflexivity|]. simpl. by rewrite Hlen.
      * rewrite step_contexts_snoc. simpl. by rewrite <- app_assoc.
      * intros Hbefore. apply Hnd. rewrite fmap_app. simpl.
        apply NoDup_app. split; [done|]. split; [|apply NoDup_singleton].
        intros x Hx Hx'%list_elem_of_singleton. subst x.
        by apply find_unique_name_fresh in Hx.
    + rewrite get_caller_module_locals_insert_ne in * by done.
      split; [|done]. by exists added.
Qed.

(** X7.  Decorations applied in different modules do not see each other:
    in either order they leave the same interpreter state. *)
Theorem decorations_in_different_modules_commute (w : World) (d1 d2 : Decoration) :
  dec_caller d1 ≠ dec_caller d2 →
  apply_decoration (apply_decoration w d1) d2
  = apply_decoration (apply_decoration w d2) d1.
Proof.
  intros Hne.
  rewrite (apply_decoration_effect (apply_decoration w d1) d2).
  rewrite (apply_decoration_effect (apply_decoration w d2) d1).
  rewrite !(apply_decoration_effect w). simpl.
  rewrite !get_caller_module_locals_insert_ne by done.
  f_equal. by apply insert_insert_ne.
Qed.

Lemma decorations_in_different_modules_commute_witness :
  apply_decoration
    (apply_decoration empty_world
       {| dec_type := GIVEN; dec_name := inl "I have a bar"; dec_converters := None;
          dec_target := None; dec_caller := "test_a"; dec_func := have_a_bar |})
    {| dec_type := THEN; dec_name := inl "I have a bar"; dec_converters := None;
       dec_target := Some "bar"; dec_caller := "test_b"; dec_func := have_a_bar_too |}
  = apply_decoration
      (apply_decoration empty_world
         {| dec_type := THEN; dec_name := inl "I have a bar"; dec_converters := None;
            dec_target := Some "bar"; dec_caller := "test_b";
            dec_func := have_a_bar_too |})
      {| dec_type := GIVEN; dec_name := inl "I have a bar"; dec_converters := None;
         dec_target := None; dec_caller := "test_a"; dec_func := have_a_bar |}.
Proof.
  apply decorations_in_different_modules_commute. simpl. discriminate.
Defined.

(** ** The injector: what it leaves alone and how its finaliser fails *)

Lemma remove_fd_none (i : nat) (l : list FixtureDef) :
  remove_fd i l = None ↔ ∀ x, x ∈ l → fd_id x ≠ i.
Proof.
  induction l as [|y l IH]; simpl.
  - split; [|done]. intros _ x Hx. by apply not_elem_of_nil in Hx.
  - destruct (decide (fd_id y = i)) as [Heq|Hne].
    + split; [done|]. intros Hall. exfalso. apply (Hall y); [by left | done].
    + rewrite fmap_None, IH. split.
      * intros Hall x Hx. apply elem_of_cons in Hx as [->|Hx]; [done | by apply Hall].
      * intros Hall x Hx. apply Hall. by right.
Qed.

Lemma remove_str_none (s : string) (l : list string) :
  remove_str s l = None ↔ s ∉ l.
Proof.
  induction l as [|y l IH]; simpl.
  - split; [|done]. intros _. apply not_elem_of_nil.
  - destruct (decide (y = s)) as [->|Hne].
    + split; [done|]. intros Hout. exfalso. apply Hout. by left.
    + rewrite fmap_None, IH, not_elem_of_cons. split; [by split | by intros [_ ?]].
Qed.

Lemma remove_str_sublist (s : string) (l l' : list string) :
  remove_str s l = Some l' → l' `sublist_of` l.
Proof.
  revert l'. induction l as [|y l IH]; intros l'; simpl; [done|].
  destruct (decide (y = s)).
  - intros [= <-]. by apply sublist_cons.
  - destruct (remove_str s l) as [l0|]; [|done]. intros [= <-].
    apply sublist_skip. by apply IH.
Qed.

Lemma remove_fd_middle (l l' : list FixtureDef) (fd : FixtureDef) :
  (∀ x, x ∈ l → fd_id x ≠ fd_id fd) →
  remove_fd (fd_id fd) (l ++ fd :: l') = Some (l ++ l').
Proof.
  induction l as [|y l IH]; simpl; intros Hfresh.
  - by rewrite decide_True.
  - rewrite decide_False; [|apply Hfresh; left].
    rewrite IH; [done|]. intros x Hx. apply Hfresh. by right.
Qed.

Lemma remove_str_commute (a b : string) (l l1 l12 : list string) :
  a ≠ b → remove_str a l = Some l1 → remove_str b l1 = Some l12 →
  ∃ l2, remove_str b l = Some l2 ∧ remove_str a l2 = Some l12.
Proof.
  intros Hne. revert l1 l12. induction l as [|x l IH]; intros l1 l12; simpl; [done|].
  destruct (decide (x = a)) as [->|Hxa].
  - intros [= <-] Hb. rewrite decide_False by done. rewrite Hb. simpl.
    eexists. split; [done|]. simpl. by rewrite decide_True.
  - destruct (remove_str a l) as [l1'|] eqn:Ha; [|done]. intros [= <-]. simpl.
    destruct (decide (x = b)) as [->|Hxb].
    + intros [= <-]. eexists. split; [done|]. done.
    + destruct (remove_str b l1') as [l12'|] eqn:Hb; [|done]. intros [= <-].
      destruct (IH _ _ eq_refl Hb) as (l2 & Hl2 & Hl2').
      rewrite Hl2. simpl. eexists. split; [done|]. simpl.
      rewrite decide_False by done. by rewrite Hl2'.
Qed.

Lemma fin_entry_missing (c : Finalizer) (s : FixtureRequest) (defs : list FixtureDef) :
  _arg2fixturedefs s !! fin_arg c = Some defs →
  remove_fd (fd_id (fin_fd c)) defs = None →
  fin c s = Raised ValueError s.
Proof. unfold fin. by intros -> ->. Qed.

(** What a finaliser that returns has done. *)
Lemma fin_returned (c : Finalizer) (s s' : FixtureRequest) :
  fin c s = Returned () s' ↔
  ∃ defs defs' closure',
    _arg2fixturedefs s !! fin_arg c = Some defs ∧
    remove_fd (fd_id (fin_fd c)) defs = Some defs' ∧
    (if fin_add_fixturename c
     then remove_str (fin_arg c) (names_closure s) = Some closure'
     else closure' = names_closure s) ∧
    s' = {| _arg2fixturedefs := <[fin_arg c := defs']> (_arg2fixturedefs s);
            _fixture_defs := <[fin_arg c := fin_old_fd c]> (_fixture_defs s);
            names_closure := closure';
            _finalizers := _finalizers s;
            next_id := next_id s |}.
Proof.
  unfold fin. split.
  - destruct (_arg2fixturedefs s !! fin_arg c) as [defs|] eqn:Hdefs; [|done].
    destruct (remove_fd (fd_id (fin_fd c)) defs) as [defs'|] eqn:Hfd; [|done]. simpl.
    destruct (fin_add_fixturename c) eqn:Hadd.
    + destruct (remove_str (fin_arg c) (names_closure s)) as [closure'|] eqn:Hrm; [|done].
      intros [= <-]. by exists defs, defs', closure'.
    + intros [= <-]. by exists defs, defs', (names_closure s).
  - intros (defs & defs' & closure' & -> & -> & Hclosure & ->). simpl.
    destruct (fin_add_fixturename c); [by rewrite Hclosure | by rewrite Hclosure].
Qed.

(** X8.  The ways in which the finaliser raises.  [KeyError] when the
    name has no key among the definitions and [ValueError] when its list
    lacks the installed entry, the request being untouched in both cases;
    and [ValueError] when the injector had appended the name to the
    closure and the name is no longer there, in which case the entry has
    already been removed and the old definition written back. *)
Theorem fin_failure_modes (c : Finalizer) (s s' : FixtureRequest) (e : PyErr) :
  fin c s = Raised e s' →
  (e = KeyError ∧ s' = s ∧ _arg2fixturedefs s !! fin_arg c = None) ∨
  (e = ValueError ∧ s' = s ∧
   ∃ defs, _arg2fixturedefs s !! fin_arg c = Some defs ∧
     ∀ x, x ∈ defs → fd_id x ≠ fd_id (fin_fd c)) ∨
  (e = ValueError ∧ fin_add_fixturename c = true ∧
   (fin_arg c ∉ names_closure s) ∧
   ∃ defs defs', _arg2fixturedefs s !! fin_arg c = Some defs ∧
     remove_fd (fd_id (fin_fd c)) defs = Some defs' ∧
     _arg2fixturedefs s' = <[fin_arg c := defs']> (_arg2fixturedefs s) ∧
     _fixture_defs s' = <[fin_arg c := fin_old_fd c]> (_fixture_defs s) ∧
     names_closure s' = names_closure s).
Proof.
  unfold fin.
  destruct (_arg2fixturedefs s !! fin_arg c) as [defs|] eqn:Hdefs.
  - destruct (remove_fd (fd_id (fin_fd c)) defs) as [defs'|] eqn:Hrm.
    + simpl. destruct (fin_add_fixturename c) eqn:Hadd; [|done].
      destruct (remove_str (fin_arg c) (names_closure s)) eqn:Hstr; [done|].
      intros [= <- <-]. right. right. split; [done|]. split; [done|].
      split; [by apply remove_str_none|]. by exists defs, defs'.
    + intros [= <- <-]. right. left. split; [done|]. split; [done|].
      exists defs. split; [done|]. by apply remove_fd_none.
  - intros [= <- <-]. by left.
Qed.

Lemma fin_failure_modes_witness :
  let c := {| fin_arg := "foo"; fin_fd := new_fixture_def 0 "foo" PyNone;
              fin_old_fd := None; fin_add_fixturename := true |} in
  let s := {| _arg2fixturedefs := {["foo" := [new_fixture_def 0 "foo" PyNone]]};
              _fixture_defs := ∅; names_closure := []; _finalizers := [];
              next_id := 1 |} in
  fin c s = Raised ValueError (result_request (fin c s)) ∧
  _arg2fixturedefs (result_request (fin c s)) = <["foo" := []]> (_arg2fixturedefs s).
Proof.
  intros c s.
  assert (Hraised : fin c s = Raised ValueError (result_request (fin c s)))
    by (vm_compute; reflexivity).
  split; [exact Hraised|].
  destruct (fin_failure_modes c s _ _ Hraised)
    as [(He & _)|[(_ & _ & defs & Hdefs & Hall)|
                  (_ & _ & _ & defs & defs' & Hdefs & Hrm & Htable & _)]].
  - discriminate He.
  - exfalso. vm_compute in Hdefs. injection Hdefs as <-.
    apply (Hall (new_fixture_def 0 "foo" PyNone)); [by left | done].
  - rewrite Htable. vm_compute in Hdefs. injection Hdefs as <-.
    vm_compute in Hrm. by injection Hrm as <-.
Defined.

(** X9.  Finalisers of injections of different names can run in either
    order: when one order returns, so does the other, and the request
    they leave is the same. *)
Theorem finalizers_of_different_names_commute (c1 c2 : Finalizer)
    (s s1 s12 : FixtureRequest) :
  fin_arg c1 ≠ fin_arg c2 →
  fin c1 s = Returned () s1 → fin c2 s1 = Returned () s12 →
  ∃ s2, fin c2 s = Returned () s2 ∧ fin c1 s2 = Returned () s12.
Proof.
  intros Hne H1 H2.
  apply fin_returned in H1 as (d1 & d1' & nc1 & Hd1 & Hr1 & Hc1 & ->).
  apply fin_returned in H2 as (d2 & d2' & nc12 & Hd2 & Hr2 & Hc2 & ->).
  simpl in *. rewrite lookup_insert_ne in Hd2 by done.
  assert (Hclosure : ∃ nc2,
            (if fin_add_fixturename c2
             then remove_str (fin_arg c2) (names_closure s) = Some nc2
             else nc2 = names_closure s) ∧
            (if fin_add_fixturename c1
             then remove_str (fin_arg c1) nc2 = Some nc12
             else nc12 = nc2)).
  { destruct (fin_add_fixturename c1), (fin_add_fixturename c2); subst.
    - by apply (remove_str_commute (fin_arg c1) (fin_arg c2) _ nc1).
    - by exists (names_closure s).
    - by exists nc12.
    - by exists (names_closure s). }
  destruct Hclosure as (nc2 & Hc2' & Hc1').
  exists {| _arg2fixturedefs := <[fin_arg c2 := d2']> (_arg2fixturedefs s);
            _fixture_defs := <[fin_arg c2 := fin_old_fd c2]> (_fixture_defs s);
            names_closure := nc2;
            _finalizers := _finalizers s;
            next_id := next_id s |}.
  split.
  - apply fin_returned. by exists d2, d2', nc2.
  - apply fin_returned. exists d1, d1', nc12. simpl.
    rewrite lookup_insert_ne by done. split; [done|]. split; [done|].
    split; [done|]. f_equal; by apply insert_insert_ne.
Qed.

Lemma finalizers_of_different_names_commute_witness :
  let s := {| _arg2fixturedefs :=
                <["foo" := [new_fixture_def 0 "foo" (PyStr "injected foo")]]>
                  (<["bar" := [new_fixture_def 1 "bar" (PyInt 1)]]> ∅);
              _fixture_defs :=
                <["foo" := Some (new_fixture_def 0 "foo" (PyStr "injected foo"))]>
                  (<["bar" := Some (new_fixture_def 1 "bar" (PyInt 1))]> ∅);
              names_closure := ["foo"; "bar"]; _finalizers := []; next_id := 2 |} in
  let c_bar := {| fin_arg := "bar"; fin_fd := new_fixture_def 1 "bar" (PyInt 1);
                  fin_old_fd := None; fin_add_fixturename := true |} in
  let c_foo := {| fin_arg := "foo";
                  fin_fd := new_fixture_def 0 "foo" (PyStr "injected foo");
                  fin_old_fd := None; fin_add_fixturename := true |} in
  ∃ s2, fin c_bar s = Returned () s2 ∧
    fin c_foo s2
    = Returned () (result_request (fin c_bar (result_request (fin c_foo s)))).
Proof.
  intros s c_bar c_foo.
  apply (finalizers_of_different_names_commute c_foo c_bar s
           (result_request (fin c_foo s))).
  - vm_compute. discriminate.
  - vm_compute. reflexivity.
  - vm_compute. reflexivity.
Defined.

Section InjectorEdges.
Context `{host : Host}.

(** X10.  The finaliser of an injection works once.  Run a second time it
    raises [ValueError], the installed entry being gone from the list, and
    leaves the request as the first run left it. *)
Theorem fin_twice_raises (r r1 : FixtureRequest) (arg : string) (v : PyVal) :
  closure_reported → ids_allocated r →
  inject_fixture r arg v = Returned () r1 →
  ∃ c s, _finalizers r1 = c :: _finalizers r ∧
    fin c r1 = Returned () s ∧ fin c s = Raised ValueError s.
Proof.
  intros Hrep Hids Hinj.
  pose proof (inject_fixture_inv _ _ _ _ Hinj) as Hr1.
  set (fd := new_fixture_def (next_id r) arg v) in *.
  set (add := bool_decide (arg ∉ fixturenames r)) in *.
  set (c := {| fin_arg := arg; fin_fd := fd;
               fin_old_fd := dict_get (_fixture_defs r) arg;
               fin_add_fixturename := add |}).
  assert (Hfresh : ∀ x, x ∈ defs_of r arg → fd_id x ≠ fd_id fd).
  { intros x Hx. unfold defs_of in Hx.
    destruct (_arg2fixturedefs r !! arg) as [l|] eqn:Hl; simpl in Hx.
    - specialize (Hids arg l x Hl Hx). simpl. lia.
    - by apply not_elem_of_nil in Hx. }
  exists c. eexists. split; [by rewrite Hr1|]. split.
  - apply (fin_restores c r1 (defs_of r arg) (names_closure r)); simpl.
    + rewrite Hr1, defs_of_insert. by rewrite decide_True.
    + exact Hfresh.
    + by rewrite Hr1.
    + unfold add. intros Hadd%bool_decide_eq_true Hin. apply Hadd. by apply Hrep.
  - apply (fin_entry_missing c _ (defs_of r arg)); simpl.
    + by rewrite lookup_insert_eq.
    + by apply remove_fd_none.
Qed.

(** X11.  The order of the finalisers matters for one name.  When the
    finalisers of two stacked injections of a name run in the order of
    registration instead of the reverse, both return, the closure and the
    registered definitions are as before the first injection, but the
    active definition of the name is left to be the entry of the first
    injection, which is no longer among the registered definitions. *)
Theorem finalizers_in_registration_order_leave_stale_entry
    (r r1 r2 : FixtureRequest) (n : string) (v1 v2 : PyVal) :
  closure_reported → ids_allocated r →
  inject_fixture r n v1 = Returned () r1 →
  inject_fixture r1 n v2 = Returned () r2 →
  ∃ c2 c1 s1 s2,
    _finalizers r2 = c2 :: c1 :: _finalizers r ∧
    fin c1 r2 = Returned () s1 ∧ fin c2 s1 = Returned () s2 ∧
    names_closure s2 = names_closure r ∧
    defs_of s2 n = defs_of r n ∧
    dict_get (_fixture_defs s2) n = Some (new_fixture_def (next_id r) n v1) ∧
    ∀ x, x ∈ defs_of s2 n → fd_id x ≠ next_id r.
Proof.
  intros Hrep Hids Hinj1 Hinj2.
  pose proof (inject_fixture_inv _ _ _ _ Hinj1) as Hr1.
  pose proof (inject_fixture_inv _ _ _ _ Hinj2) as Hr2.
  set (fd1 := new_fixture_def (next_id r) n v1) in *.
  set (fd2 := new_fixture_def (next_id r1) n v2) in *.
  set (add1 := bool_decide (n ∉ fixturenames r)) in *.
  set (add2 := bool_decide (n ∉ fixturenames r1)) in *.
  assert (Hfresh : ∀ x, x ∈ defs_of r n → fd_id x < next_id r).
  { intros x Hx. unfold defs_of in Hx.
    destruct (_arg2fixturedefs r !! n) as [l|] eqn:Hl; simpl in Hx.
    - exact (Hids n l x Hl Hx).
    - by apply not_elem_of_nil in Hx. }
  assert (Hdefs1 : defs_of r1 n = defs_of r n ++ [fd1]).
  { rewrite Hr1, defs_of_insert. by rewrite decide_True. }
  assert (Hnext : next_id r1 = S (next_id r)) by (by rewrite Hr1).
  assert (Hadd1 : add1 = true → n ∉ names_closure r).
  { unfold add1. intros Hadd%bool_decide_eq_true Hin. apply Hadd. by apply Hrep. }
  assert (Hadd2 : add2 = true → n ∉ names_closure r1).
  { unfold add2. intros Hadd%bool_decide_eq_true Hin. apply Hadd. by apply Hrep. }
  assert (Hnc1 : names_closure r1
                 = if add1 then names_closure r ++ [n] else names_closure r)
    by (by rewrite Hr1).
  assert (Hclosure : ∃ mid,
            (if add1 then remove_str n (names_closure r2) = Some mid
             else mid = names_closure r2) ∧
            (if add2 then remove_str n mid = Some (names_closure r)
             else names_closure r = mid)).
  { rewrite Hr2. simpl. fold add2. rewrite Hnc1.
    destruct add1 eqn:H1, add2 eqn:H2.
    - exfalso. apply Hadd2; [done|]. rewrite Hnc1. apply elem_of_app. right. by left.
    - exists (names_closure r). split; [|done].
      apply remove_str_last. by apply Hadd1.
    - exists (names_closure r ++ [n]). split; [done|].
      apply remove_str_last. specialize (Hadd2 eq_refl). by rewrite Hnc1 in Hadd2.
    - by exists (names_closure r). }
  destruct Hclosure as (mid & Hmid1 & Hmid2).
  exists {| fin_arg := n; fin_fd := fd2; fin_old_fd := dict_get (_fixture_defs r1) n;
            fin_add_fixturename := add2 |},
         {| fin_arg := n; fin_fd := fd1; fin_old_fd := dict_get (_fixture_defs r) n;
            fin_add_fixturename := add1 |}.
  eexists. eexists. split; [by rewrite Hr2, Hr1|]. split.
  { apply fin_returned. exists (defs_of r n ++ fd1 :: [fd2]), (defs_of r n ++ [fd2]), mid.
    simpl. split.
    - rewrite Hr2. simpl. rewrite lookup_insert_eq, Hdefs1.
      by rewrite <- app_assoc.
    - split.
      { apply (remove_fd_middle (defs_of r n) [fd2] fd1). intros x Hx. simpl.
        specialize (Hfresh x Hx). lia. }
      split; [exact Hmid1 | reflexivity]. }
  split.
  { apply fin_returned. exists (defs_of r n ++ [fd2]), (defs_of r n), (names_closure r).
    simpl. rewrite lookup_insert_eq. split; [done|]. split.
    - apply (remove_fd_last (defs_of r n) fd2). intros x Hx. unfold fd2. simpl.
      rewrite Hnext. specialize (Hfresh x Hx). lia.
    - split; [|reflexivity]. destruct add2; [exact Hmid2 | by rewrite Hmid2]. }
  assert (Hfinal : ∀ (m : gmap string (list FixtureDef))
                     (f : gmap string (option FixtureDef)) nc fs i,
            defs_of {| _arg2fixturedefs := <[n := defs_of r n]> m;
                       _fixture_defs := f; names_closure := nc;
                       _finalizers := fs; next_id := i |} n = defs_of r n).
  { intros m f nc fs i. unfold defs_of at 1. simpl. by rewrite lookup_insert_eq. }
  split; [done|]. split; [apply Hfinal|]. split.
  { cbn [_fixture_defs]. rewrite dict_get_insert, decide_True by done.
    rewrite Hr1. cbn [_fixture_defs]. by rewrite dict_get_insert, decide_True. }
  intros x. rewrite Hfinal. intros Hx.
  specialize (Hfresh x Hx). lia.
Qed.

(** X12.  What an injection leaves alone.  The entries of every other
    name are untouched in both tables; the definitions registered for
    the name are all kept, in order, in front of the new one; the closure
    keeps its names in order and gains at most the injected name, at the
    end, and only when the request did not report that name. *)
Theorem inject_fixture_frame (r r1 : FixtureRequest) (arg : string) (v : PyVal) :
  inject_fixture r arg v = Returned () r1 →
  (∀ n, n ≠ arg →
     _arg2fixturedefs r1 !! n = _arg2fixturedefs r !! n ∧
     _fixture_defs r1 !! n = _fixture_defs r !! n) ∧
  (∃ fd, defs_of r1 arg = defs_of r arg ++ [fd] ∧ fd_argname fd = arg ∧
     fd_id fd = next_id r) ∧
  (arg ∈ fixturenames r → names_closure r1 = names_closure r) ∧
  (arg ∉ fixturenames r → names_closure r1 = names_closure r ++ [arg]) ∧
  (∀ c, c ∈ _finalizers r → c ∈ _finalizers r1).
Proof.
  intros Hinj. rewrite (inject_fixture_inv _ _ _ _ Hinj). simpl.
  split; [|split; [|split; [|split]]].
  - intros n Hne. by rewrite !lookup_insert_ne.
  - eexists. rewrite defs_of_insert, decide_True by done. done.
  - intros Hin. by rewrite bool_decide_eq_false_2 by (by intros ?).
  - intros Hout. by rewrite bool_decide_eq_true_2.
  - intros c Hc. by right.
Qed.

(** X13.  The closure never lists a name twice because of the injector:
    when its names are distinct they are still distinct after an
    injection and after a finaliser. *)
Theorem closure_stays_duplicate_free (r : FixtureRequest) :
  closure_reported → NoDup (names_closure r) →
  (∀ arg v r1, inject_fixture r arg v = Returned () r1 → NoDup (names_closure r1)) ∧
  (∀ c s, fin c r = Returned () s → NoDup (names_closure s)).
Proof.
  intros Hrep Hnd. split.
  - intros arg v r1 Hinj. rewrite (inject_fixture_inv _ _ _ _ Hinj). simpl.
    destruct (bool_decide (arg ∉ fixturenames r)) eqn:Hadd; [|done].
    apply bool_decide_eq_true in Hadd.
    apply NoDup_app. split; [done|]. split; [|apply NoDup_singleton].
    intros x Hx Hx'%list_elem_of_singleton. subst x. apply Hadd. by apply Hrep.
  - intros c s Hfin.
    apply fin_returned in Hfin as (defs & defs' & closure' & _ & _ & Hclosure & ->).
    simpl. destruct (fin_add_fixturename c); [|by subst].
    eapply sublist_NoDup; [exact Hnd | by eapply remove_str_sublist].
Qed.

End InjectorEdges.

Lemma fin_twice_raises_witness :
  ∃ c s,
    fin c (result_request
             (@inject_fixture pytest_host empty_request "foo" (PyStr "injected foo")))
    = Returned () s ∧
    fin c s = Raised ValueError s.
Proof.
  destruct (@fin_twice_raises pytest_host empty_request
              (result_request
                 (@inject_fixture pytest_host empty_request "foo" (PyStr "injected foo")))
              "foo" (PyStr "injected foo")
              pytest_host_closure_reported empty_request_ids_allocated eq_refl)
    as (c & s & _ & Hfirst & Hsecond).
  by exists c, s.
Defined.

Lemma finalizers_in_registration_order_leave_stale_entry_witness :
  ∃ c2 c1 s1 s2,
    fin c1 (result_request
              (@inject_all pytest_host [("foo", PyStr "first"); ("foo", PyStr "second")]
                 empty_request)) = Returned () s1 ∧
    fin c2 s1 = Returned () s2 ∧
    dict_get (_fixture_defs s2) "foo" = Some (new_fixture_def 0 "foo" (PyStr "first")) ∧
    defs_of s2 "foo" = [].
Proof.
  destruct (@finalizers_in_registration_order_leave_stale_entry pytest_host
              empty_request
              (result_request
                 (@inject_fixture pytest_host empty_request "foo" (PyStr "first")))
              (result_request
                 (@inject_all pytest_host
                    [("foo", PyStr "first"); ("foo", PyStr "second")] empty_request))
              "foo" (PyStr "first") (PyStr "second")
              pytest_host_closure_reported empty_request_ids_allocated eq_refl eq_refl)
    as (c2 & c1 & s1 & s2 & _ & H1 & H2 & _ & Hdefs & Hget & _).
  exists c2, c1, s1, s2. split; [exact H1|]. split; [exact H2|].
  split; [exact Hget | exact Hdefs].
Defined.

Lemma inject_fixture_frame_witness :
  defs_of
    (result_request
       (@inject_fixture pytest_host
          (result_request (@inject_fixture pytest_host empty_request "foo" (PyInt 1)))
          "bar" (PyInt 2))) "foo"
  = defs_of (result_request (@inject_fixture pytest_host empty_request "foo" (PyInt 1)))
      "foo".
Proof.
  destruct (@inject_fixture_frame pytest_host
              (result_request (@inject_fixture pytest_host empty_request "foo" (PyInt 1)))
              (result_request
                 (@inject_fixture pytest_host
                    (result_request
                       (@inject_fixture pytest_host empty_request "foo" (PyInt 1)))
                    "bar" (PyInt 2)))
              "bar" (PyInt 2) eq_refl) as (Hframe & _).
  unfold defs_of. by destruct (Hframe "foo") as [-> _].
Defined.

Lemma closure_stays_duplicate_free_witness :
  NoDup (names_closure
           (result_request
              (@inject_fixture pytest_host empty_request "foo" (PyInt 1)))).
Proof.
  destruct (@closure_stays_duplicate_free pytest_host empty_request
              pytest_host_closure_reported (NoDup_nil_2 : NoDup (names_closure empty_request)))
    as [Hinj _].
  by apply (Hinj "foo" (PyInt 1)).
Defined.

(** ** The helper of the missing-example test *)

Lemma substring_0_0 (s : string) : String.substring 0 0 s = EmptyString.
Proof. by destruct s. Qed.

Lemma substring_prefix (s1 s2 : string) :
  String.substring 0 (String.length s1) (s1 +:+ s2) = s1.
Proof.
  induction s1 as [|c s1 IH]; [apply substring_0_0|].
  change (String c (String.substring 0 (String.length s1) (s1 +:+ s2)) = String c s1).
  by rewrite IH.
Qed.

Lemma substring_last (s : string) (c : Ascii.ascii) :
  String.substring (String.length s) 1 (s +:+ String c EmptyString)
  = String c EmptyString.
Proof. induction s as [|c' s IH]; [done | exact IH]. Qed.

Lemma string_split_last (s : string) :
  ∀ c0 c : Ascii.ascii,
    String.substring (String.length s) 1 (String c0 s) = String c EmptyString →
    String c0 s
    = String.substring 0 (String.length s) (String c0 s) +:+ String c EmptyString.
Proof.
  induction s as [|c2 s IH]; intros c0 c.
  - simpl. by intros [= ->].
  - intros Hlast.
    change (String c0 (String c2 s)
            = String c0 (String.substring 0 (String.length s) (String c2 s)
                         +:+ String c EmptyString)).
    f_equal. by apply IH.
Qed.

(** X14.  [parameterized_or_literal] turns the empty argument into
    [None] without asking the request; an argument written between [<]
    and [>] is looked up by the name between them, whatever that name is;
    every other argument is returned as it is. *)
Theorem parameterized_or_literal_cases (getvalue : string → PyErr + PyVal) :
  parameterized_or_literal getvalue EmptyString = inr PyNone ∧
  (∀ name, parameterized_or_literal getvalue ("<" +:+ name +:+ ">") = getvalue name) ∧
  (∀ argument, argument ≠ EmptyString →
     (∀ name, argument ≠ "<" +:+ name +:+ ">") →
     parameterized_or_literal getvalue argument = inr (PyStr argument)).
Proof.
  split; [done|]. split.
  - intros name. unfold parameterized_or_literal.
    rewrite decide_False by done.
    assert (Hlen : String.length ("<" +:+ name +:+ ">") = S (S (String.length name))).
    { change (S (String.length (name +:+ ">")) = S (S (String.length name))).
      rewrite string_length_app. simpl. lia. }
    rewrite Hlen, decide_True.
    + change (S (S (String.length name)) - 2) with (String.length name - 0).
      rewrite Nat.sub_0_r.
      change (String.substring 1 (String.length name) ("<" +:+ name +:+ ">"))
        with (String.substring 0 (String.length name) (name +:+ ">")).
      by rewrite substring_prefix.
    + split; [simpl; by rewrite substring_0_0|].
      change (S (S (String.length name)) - 1) with (S (String.length name)).
      change (String.substring (S (String.length name)) 1 ("<" +:+ name +:+ ">"))
        with (String.substring (String.length name) 1 (name +:+ ">")).
      apply substring_last.
  - intros argument Hne Hform. unfold parameterized_or_literal.
    rewrite decide_False by done.
    rewrite decide_False; [done|]. intros [Hfirst Hlast].
    destruct argument as [|c rest]; [done|].
    simpl in Hfirst. rewrite substring_0_0 in Hfirst. injection Hfirst as ->.
    assert (Hk : ∀ c0 r, String.length (String c0 r) - 1 = String.length r)
      by (intros; simpl; lia).
    rewrite Hk in Hlast.
    apply string_split_last in Hlast.
    destruct rest as [|c2 rest]; [discriminate Hlast|].
    by apply (Hform (String.substring 0 (String.length rest) (String c2 rest))).
Qed.

(** ** What the finalisers leave in the tables *)

Lemma tables_unwound (r s : FixtureRequest) (injected : list string) :
  names_closure s = names_closure r →
  (∀ n, _fixture_defs s !! n =
        if decide (n ∈ injected) then Some (dict_get (_fixture_defs r) n)
        else _fixture_defs r !! n) →
  (∀ n, _arg2fixturedefs s !! n =
        if decide (n ∈ injected) then Some (defs_of r n)
        else _arg2fixturedefs r !! n) →
  unwound r injected s.
Proof.
  intros Hnc Hfd Ha2f. unfold unwound.
  split; [done|]. split.
  { intros n. unfold dict_get at 1. rewrite Hfd. by destruct (decide (n ∈ injected)). }
  split.
  { intros n. unfold defs_of at 1. rewrite Ha2f. by destruct (decide (n ∈ injected)). }
  split.
  { intros n Hout. by rewrite Hfd, Ha2f, !decide_False. }
  split.
  { intros n Hin. by rewrite Hfd, Ha2f, !decide_True. }
  split.
  { intros n Hin Hnone. rewrite Hfd, decide_True by done.
    unfold dict_get. by rewrite Hnone. }
  split.
  { intros n Hin Hnone. rewrite Ha2f, decide_True by done.
    unfold defs_of. by rewrite Hnone. }
  split.
  - intros Hgraph. unfold graph in Hgraph.
    assert (Hf : _fixture_defs s = _fixture_defs r) by congruence.
    assert (Ha : _arg2fixturedefs s = _arg2fixturedefs r) by congruence.
    apply Forall_forall. intros n Hin. split.
    + rewrite <- Ha, Ha2f, decide_True by done. eauto.
    + rewrite <- Hf, Hfd, decide_True by done. eauto.
  - intros Hkeys. rewrite Forall_forall in Hkeys. unfold graph.
    rewrite Hnc. f_equal. f_equal.
    + apply map_eq. intros n. rewrite Ha2f.
      destruct (decide (n ∈ injected)) as [Hin|]; [|done].
      destruct (Hkeys n Hin) as [[l Hl] _]. unfold defs_of. by rewrite Hl.
    + apply map_eq. intros n. rewrite Hfd.
      destruct (decide (n ∈ injected)) as [Hin|]; [|done].
      destruct (Hkeys n Hin) as [_ [o Ho]]. unfold dict_get. by rewrite Ho.
Qed.

Section Unwinding.
Context `{host : Host}.

(** A run of injections and then the finalisers it registered, newest
    first, from the request the run left: what each table holds. *)
Lemma inject_all_unwinds_tables (injections : list (string * PyVal)) :
  closure_reported →
  ∀ r r', ids_allocated r → inject_all injections r = Returned () r' →
    ∃ cs, _finalizers r' = cs ++ _finalizers r ∧ length cs = length injections ∧
      ∀ s errs, graph s = graph r' →
        ∃ s', run_finalizers cs s errs = (s', errs) ∧
          names_closure s' = names_closure r ∧
          (∀ n, _fixture_defs s' !! n =
                if decide (n ∈ injections.*1)
                then Some (dict_get (_fixture_defs r) n)
                else _fixture_defs r !! n) ∧
          (∀ n, _arg2fixturedefs s' !! n =
                if decide (n ∈ injections.*1) then Some (defs_of r n)
                else _arg2fixturedefs r !! n).
Proof.
  intros Hrep. induction injections as [|[arg v] rest IH]; intros r r' Hids Hall.
  - injection Hall as <-. exists nil. split; [done|]. split; [done|].
    intros s errs Hgraph. exists s. unfold graph in Hgraph.
    split; [done|]. split; [congruence|]. split.
    + intros n. rewrite decide_False by apply not_elem_of_nil. congruence.
    + intros n. rewrite decide_False by apply not_elem_of_nil. congruence.
  - simpl in Hall. destruct (inject_fixture r arg v) as [[] r1|] eqn:Hinj; [|done].
    pose proof (inject_fixture_ids _ _ _ _ Hids Hinj) as Hids1.
    pose proof (inject_fixture_inv _ _ _ _ Hinj) as Hr1.
    destruct (IH r1 r' Hids1 Hall) as (cs & Hcs & Hlen & Hrun).
    exists (cs ++ [{| fin_arg := arg;
                      fin_fd := new_fixture_def (next_id r) arg v;
                      fin_old_fd := dict_get (_fixture_defs r) arg;
                      fin_add_fixturename := bool_decide (arg ∉ fixturenames r) |}]).
    split; [rewrite Hcs, <- app_assoc; simpl; by rewrite Hr1 at 1|].
    split; [rewrite length_app; simpl; lia|].
    intros s errs Hgraph.
    destruct (Hrun s errs Hgraph) as (s1 & Hrun1 & Hnc1 & Hfd1 & Ha2f1).
    assert (Hsame : same_bindings s1 r1).
    { pose proof (tables_unwound r1 s1 rest.*1 Hnc1 Hfd1 Ha2f1) as (? & ? & ? & _).
      by repeat split. }
    destruct (inject_then_fin r r1 s1 arg v Hrep Hids Hinj Hsame)
      as (c & s' & Hc & _ & Hfin & (Hnc & _ & Hdefs) & _).
    assert (c = {| fin_arg := arg;
                   fin_fd := new_fixture_def (next_id r) arg v;
                   fin_old_fd := dict_get (_fixture_defs r) arg;
                   fin_add_fixturename := bool_decide (arg ∉ fixturenames r) |}) as ->.
    { rewrite Hr1 in Hc. simpl in Hc. by injection Hc as <-. }
    exists s'. split.
    { rewrite run_finalizers_app, Hrun1. simpl. by rewrite Hfin. }
    split; [done|].
    apply fin_returned in Hfin as (defs & defs' & closure' & _ & _ & _ & Hs').
    simpl in Hs'.
    assert (Hdefs' : defs' = defs_of r arg).
    { rewrite <- (Hdefs arg), Hs'. unfold defs_of. simpl.
      by rewrite lookup_insert_eq. }
    subst defs'. rewrite Hs'. simpl. split.
    + intros n. rewrite lookup_insert.
      destruct (decide (arg = n)) as [->|Hne]; [by rewrite decide_True by left|].
      rewrite Hfd1, Hr1. simpl. rewrite dict_get_insert, lookup_insert_ne by done.
      rewrite (decide_False (P := arg = n)) by done.
      destruct (decide (n ∈ rest.*1)) as [Hin|Hout].
      * by rewrite decide_True by (by right).
      * rewrite decide_False; [done|]. intros [?|?]%elem_of_cons; [by subst|done].
    + intros n. rewrite lookup_insert.
      destruct (decide (arg = n)) as [->|Hne]; [by rewrite decide_True by left|].
      rewrite Ha2f1, Hr1. rewrite defs_of_insert. simpl.
      rewrite lookup_insert_ne by done.
      rewrite (decide_False (P := arg = n)) by done.
      destruct (decide (n ∈ rest.*1)) as [Hin|Hout].
      * by rewrite decide_True by (by right).
      * rewrite decide_False; [done|]. intros [?|?]%elem_of_cons; [by subst|done].
Qed.

(** C1 (as amended).  Take any injection and the injections that follow
    it in the same invocation.  The finalisers registered since, run
    newest first, all return, and what they leave is [unwound]: the
    closure is what it was before the injection and every read is
    answered as before, the installed entries being gone; a name that was
    not injected is untouched in both tables; a name that was injected,
    this one or a later one, keeps a key in both tables, bound to what it
    was bound to before and, when it had no key, to [None] and to the
    empty list; so the tables are identical to their earlier state
    exactly when every injected name had a key in both.  At the end of an
    invocation whose only finalisers are these, the same holds of what
    teardown leaves. *)
Theorem injection_undone_by_finalizers (r r' : FixtureRequest) (name : string)
    (value : PyVal) (later : list (string * PyVal)) :
  closure_reported → ids_allocated r →
  inject_all ((name, value) :: later) r = Returned () r' →
  (∃ cs s, _finalizers r' = cs ++ _finalizers r ∧ length cs = S (length later) ∧
     run_finalizers cs r' [] = (s, []) ∧ unwound r (name :: later.*1) s) ∧
  (_finalizers r = [] →
   ∃ s, teardown r' = (s, []) ∧ unwound r (name :: later.*1) s).
Proof.
  intros Hrep Hids Hall.
  destruct (inject_all_unwinds_tables ((name, value) :: later) Hrep r r' Hids Hall)
    as (cs & Hcs & Hlen & Hrun).
  split.
  - destruct (Hrun r' [] eq_refl) as (s & Hs & Hnc & Hfd & Ha2f).
    exists cs, s. split; [done|]. split; [done|]. split; [done|].
    by apply tables_unwound.
  - intros Hnone. rewrite Hnone, app_nil_r in Hcs. unfold teardown. rewrite Hcs.
    destruct (Hrun {| _arg2fixturedefs := _arg2fixturedefs r';
                      _fixture_defs := _fixture_defs r';
                      names_closure := names_closure r';
                      _finalizers := [];
                      next_id := next_id r' |} [] eq_refl)
      as (s & Hs & Hnc & Hfd & Ha2f).
    exists s. split; [done|]. by apply tables_unwound.
Qed.


End Unwinding.

Lemma injection_undone_by_finalizers_witness :
  ∃ s, teardown
         (result_request
            (@inject_all pytest_host [("foo", PyStr "injected foo"); ("foo", PyInt 2);
                                      ("bar", PyNone)] empty_request)) = (s, []) ∧
    names_closure s = [] ∧
    (∀ n, dict_get (_fixture_defs s) n = None) ∧
    _fixture_defs s !! "bar" = Some None ∧
    _arg2fixturedefs s !! "bar" = Some [] ∧
    _fixture_defs s !! "baz" = None.
Proof.
  destruct (@injection_undone_by_finalizers pytest_host empty_request
              (result_request
                 (@inject_all pytest_host [("foo", PyStr "injected foo"); ("foo", PyInt 2);
                                           ("bar", PyNone)] empty_request))
              "foo" (PyStr "injected foo") [("foo", PyInt 2); ("bar", PyNone)]
              pytest_host_closure_reported empty_request_ids_allocated)
    as [_ Htd]; [vm_compute; reflexivity|].
  destruct Htd as (s & Hs & Hnc & Hget & _ & Hout & _ & Hfd & Ha2f & _); [reflexivity|].
  exists s. split; [exact Hs|]. split; [exact Hnc|]. split.
  { intros n. rewrite Hget. unfold dict_get. simpl. by rewrite lookup_empty. }
  split.
  { apply Hfd; [|apply lookup_empty]. simpl. rewrite !elem_of_cons. tauto. }
  split.
  { apply Ha2f; [|apply lookup_empty]. simpl. rewrite !elem_of_cons. tauto. }
  destruct (Hout "baz") as [-> _]; [|apply lookup_empty].
  simpl. rewrite !elem_of_cons, elem_of_nil.
  intros [H|[H|[H|[]]]]; discriminate H.
Defined.


